(** * The EVM auxiliary receipt store of loomchain, and its GoLevelDB wrapper

    A shallow embedding of [store/evm_aux/receipts.go] and [db/goleveldb.go].

    - Go byte slices are lists of bytes; only their length is ever observed
      by the code, so [nil] and the empty slice are both the empty list.
    - [uint64] values are integers with the wrap-around written out.
    - The key-value store is a finite map from keys to values; the write
      batch is the list of staged operations, in staging order.
    - A Go [error] is [None] (nil) or [Some e]; a call that can panic
      returns an [outcome]. *)

From Stdlib Require Import ZArith List Lia.
From Stdlib Require Import Strings.String Strings.Byte.
From stdpp Require Import base countable gmap list.
Import ListNotations.

Local Open Scope Z_scope.

(** ** Bytes *)

Abbreviation bytes := (list byte).

#[global] Instance byte_eq_dec : EqDecision byte := Byte.byte_eq_dec.

#[global] Instance byte_countable : Countable byte :=
  inj_countable Byte.to_N Byte.of_N Byte.of_to_N.

(** [len(b) == 0] *)
Definition is_empty (b : bytes) : bool :=
  match b with
  | [] => true
  | _ :: _ => false
  end.

(** ** Errors and panics *)

Inductive err : Type :=
| ErrTxReceiptNotFound
| ErrPendingReceiptNotFound
| ErrNew (msg : string)
| ErrExternal (msg : string)
| ErrWrapped (cause : err) (msg : string)
| ErrUnableToDelete (number itemsDeleted : Z).

Abbreviation error := (option err).

(** [errors.Wrap] of github.com/pkg/errors: wrapping a nil error gives nil. *)
Definition Wrap (e : error) (msg : string) : error :=
  match e with
  | None => None
  | Some cause => Some (ErrWrapped cause msg)
  end.

Inductive panic : Type :=
| PanicError (e : err)
| PanicNilDereference
| PanicIndexOutOfRange.

Inductive outcome (A : Type) : Type :=
| Ret (a : A)
| Panic (p : panic).

Arguments Ret {A} a.
Arguments Panic {A} p.

Inductive result (A : Type) : Type :=
| Ok (a : A)
| Err (msg : string).

Arguments Ok {A} a.
Arguments Err {A} msg.

(** ** Fixed-width integers *)

Definition wrap64 (z : Z) : Z := z mod 2 ^ 64.

Definition byte_of_Z (z : Z) : byte :=
  match Byte.of_N (Z.to_N (z mod 256)) with
  | Some b => b
  | None => x00
  end.

Definition Z_of_byte (b : byte) : Z := Z.of_N (Byte.to_N b).

Fixpoint le_encode (n : nat) (z : Z) : bytes :=
  match n with
  | O => []
  | S n' => byte_of_Z z :: le_encode n' (z / 256)
  end.

Fixpoint le_decode (b : bytes) : Z :=
  match b with
  | [] => 0
  | x :: rest => Z_of_byte x + 256 * le_decode rest
  end.

(** [binary.LittleEndian.PutUint64] into a fresh 8-byte slice. *)
Definition PutUint64 (v : Z) : bytes := le_encode 8 v.

(** [binary.LittleEndian.Uint64]: reads the first 8 bytes, and panics on a
    shorter slice. *)
Definition Uint64 (b : bytes) : outcome Z :=
  if (length b <? 8)%nat then Panic PanicIndexOutOfRange
  else Ret (le_decode (firstn 8 b)).

(** ** Receipts and list items (go-loom [types])

    Of a receipt the package reads the hash, the status and the logs; the
    other fields travel through the codec untouched and are left out.  The
    event records are opaque.  The receipt of a list item is a pointer,
    which may be nil. *)

Section Types.
Context {EventData : Type}.

Record EvmTxReceipt : Type := {
  TxHash : bytes;
  Status : Z;
  Logs : list EventData
}.

Record EvmTxReceiptListItem : Type := {
  Receipt : option EvmTxReceipt;
  NextTxHash : bytes
}.

End Types.

Arguments EvmTxReceipt EventData : clear implicits.
Arguments EvmTxReceiptListItem EventData : clear implicits.

Definition statusTxSuccess : Z := 1.

(** ** What the package takes from outside

    The protobuf codec, the bloom-filter builder and the key layout are
    not part of [receipts.go]; the store is parametrised by them. *)

Class Externals (EventData : Type) : Type := {
  (** [proto.Marshal] / [proto.Unmarshal] at [types.EvmTxReceiptListItem] *)
  MarshalItem : EvmTxReceiptListItem EventData -> result bytes;
  UnmarshalItem : bytes -> result (EvmTxReceiptListItem EventData);
  (** [proto.Marshal] at [types.EthTxHashList] *)
  MarshalTxHashList : list bytes -> result bytes;
  (** [bloom.GenBloomFilter] *)
  GenBloomFilter : list EventData -> bytes;
  (** the three singleton keys and the two per-height key families *)
  currentDbSizeKey : bytes;
  headKey : bytes;
  tailKey : bytes;
  bloomFilterKey : Z -> bytes;
  evmTxHashKey : Z -> bytes
}.

(** ** The key-value store and its write batch *)

Inductive batchOp : Type :=
| OpSet (key value : bytes)
| OpDelete (key : bytes).

Record EvmAuxStore : Type := {
  db : gmap bytes bytes;
  batch : list batchOp;
  maxReceipts : Z
}.

(** [s.db.Get(key)]: the stored value, or an empty slice when the key is
    absent. *)
Definition Get (d : gmap bytes bytes) (key : bytes) : bytes :=
  match d !! key with
  | Some v => v
  | None => []
  end.

(** [s.db.Has(key)] *)
Definition Has (d : gmap bytes bytes) (key : bytes) : bool :=
  match d !! key with
  | Some _ => true
  | None => false
  end.

Definition applyOp (d : gmap bytes bytes) (op : batchOp) : gmap bytes bytes :=
  match op with
  | OpSet k v => <[k := v]> d
  | OpDelete k => delete k d
  end.

(** [s.batch.Set] and [s.batch.Delete]: staged after what is staged already. *)
Definition batchSet (b : list batchOp) (key value : bytes) : list batchOp :=
  b ++ [OpSet key value].

Definition batchDelete (b : list batchOp) (key : bytes) : list batchOp :=
  b ++ [OpDelete key].

(** Modelled from the spec: the batch wrapper's [begin()], which the source
    calls as [s.Rollback()] (a method of the store declared beside receipts.go):
    "discards any previously staged, uncommitted writes". *)
Definition Rollback (s : EvmAuxStore) : EvmAuxStore :=
  {| db := db s; batch := []; maxReceipts := maxReceipts s |}.

(** Modelled from the spec: the batch wrapper's [commit()], called as
    [s.Commit()]: "applies all staged operations to the key-value store as
    a single atomic unit"; the operations take effect in staging order, and
    no batch state outlives the call. *)
Definition Commit (s : EvmAuxStore) : EvmAuxStore :=
  {| db := fold_left applyOp (batch s) (db s);
     batch := [];
     maxReceipts := maxReceipts s |}.

Definition withBatch (s : EvmAuxStore) (b : list batchOp) : EvmAuxStore :=
  {| db := db s; batch := b; maxReceipts := maxReceipts s |}.

Section Store.
Context {EventData : Type} {X : Externals EventData}.

Definition emptyReceipt : EvmTxReceipt EventData :=
  {| TxHash := []; Status := 0; Logs := [] |}.

Definition emptyItem : EvmTxReceiptListItem EventData :=
  {| Receipt := None; NextTxHash := [] |}.

(** receipts.go, lines 23-34 *)
Definition GetReceipt (s : EvmAuxStore) (txHash : bytes)
  : outcome (EvmTxReceipt EventData * error) :=
  let txReceiptProto := Get (db s) txHash in
  if is_empty txReceiptProto then Ret (emptyReceipt, Some ErrTxReceiptNotFound)
  else
    match UnmarshalItem txReceiptProto with
    | Err msg => Ret (emptyReceipt, Some (ErrExternal msg))
    | Ok txReceipt =>
        match Receipt txReceipt with
        | None => Panic PanicNilDereference
        | Some r => Ret (r, None)
        end
    end.

(** receipts.go, lines 130-153 *)
Definition getDBParams (d : gmap bytes bytes) : outcome (Z * bytes * bytes * error) :=
  if negb (Has d currentDbSizeKey) then Ret (0, [], [], None)
  else
    match Uint64 (Get d currentDbSizeKey) with
    | Panic p => Panic p
    | Ret size =>
        if size =? 0 then Ret (0, [], [], None)
        else
          let head := Get d headKey in
          if is_empty head
          then Ret (0, [], [], Some (ErrNew "no head for non zero size receipt db"))
          else
            let tail := Get d tailKey in
            if is_empty tail
            then Ret (0, [], [], Some (ErrNew "no tail for non zero size receipt db"))
            else Ret (size, head, tail, None)
    end.

(** receipts.go, lines 155-161 *)
Definition setDBParams (b : list batchOp) (size : Z) (head tail : bytes) : list batchOp :=
  let b := batchSet b headKey head in
  let b := batchSet b tailKey tail in
  let sizeB := PutUint64 size in
  batchSet b currentDbSizeKey sizeB.

(** Modelled from the spec: [setTxHashList], a method of the store
    declared beside receipts.go: "stage the success-hash list under the height key";
    the list goes through the external codec, whose failure is the error
    the caller wraps. *)
Definition setTxHashList (b : list batchOp) (txHashList : list bytes) (height : Z)
  : list batchOp * error :=
  match MarshalTxHashList txHashList with
  | Err msg => (b, Some (ErrExternal msg))
  | Ok postTxHashList => (batchSet b (evmTxHashKey height) postTxHashList, None)
  end.

(** Modelled from the spec: [setBloomFilter], a method of the store
    declared beside receipts.go: "stage it under the height key". *)
Definition setBloomFilter (b : list batchOp) (filter : bytes) (height : Z)
  : list batchOp :=
  batchSet b (bloomFilterKey height) filter.

(** receipts.go, lines 163-180.  The walk reads the durable store [d]
    only; deletions go to the batch [b].  [inl] is the return from inside
    the loop, [inr] the state at loop exit. *)
Fixpoint removeOldLoop (d : gmap bytes bytes) (n : nat) (head : bytes)
    (itemsDeleted : Z) (b : list batchOp)
  : (bytes * Z * error * list batchOp) + (bytes * Z * list batchOp) :=
  match n with
  | O => inr (head, itemsDeleted, b)
  | S n' =>
      if is_empty head then inr (head, itemsDeleted, b)
      else
        let headItem := Get d head in
        match UnmarshalItem headItem with
        | Err msg =>
            inl (head, itemsDeleted,
                 Some (ErrWrapped (ErrExternal msg)
                         ("unmarshal head " ++ string_of_list_byte headItem)),
                 b)
        | Ok txHeadReceiptItem =>
            removeOldLoop d n' (NextTxHash txHeadReceiptItem)
              (wrap64 (itemsDeleted + 1)) (batchDelete b head)
        end
  end.

Definition removeOldEntries (d : gmap bytes bytes) (b : list batchOp)
    (head : bytes) (number : Z) : bytes * Z * error * list batchOp :=
  match removeOldLoop d (Z.to_nat number) head 0 b with
  | inl r => r
  | inr (head', itemsDeleted, b') =>
      if itemsDeleted <? number
      then (head', itemsDeleted, Some (ErrUnableToDelete number itemsDeleted), b')
      else (head', itemsDeleted, None, b')
  end.

(** The local variables of [CommitReceipts] that the linking loop updates,
    together with the batch. *)
Record locals : Type := {
  l_size : Z;
  l_headHash : bytes;
  l_tailHash : bytes;
  l_tailReceiptItem : EvmTxReceiptListItem EventData;
  l_txHashArray : list bytes;
  l_events : list EventData;
  l_batch : list batchOp
}.

(** receipts.go, lines 82-91: the receipt becomes the next tail. *)
Definition setNextTail (st : locals) (txReceipt : EvmTxReceipt EventData) : locals :=
  {| l_size := l_size st;
     l_headHash := l_headHash st;
     l_tailHash := TxHash txReceipt;
     l_tailReceiptItem := {| Receipt := Some txReceipt; NextTxHash := [] |};
     l_txHashArray :=
       if Status txReceipt =? statusTxSuccess
       then l_txHashArray st ++ [TxHash txReceipt]
       else l_txHashArray st;
     l_events := l_events st ++ Logs txReceipt;
     l_batch := l_batch st |}.

(** receipts.go, lines 60-92: one iteration of the loop over [receipts]. *)
Definition linkReceipt (d : gmap bytes bytes) (st : locals)
    (r : option (EvmTxReceipt EventData)) : locals :=
  match r with
  | None => st
  | Some txReceipt =>
      if is_empty (TxHash txReceipt) then st
      else if is_empty (l_headHash st) then
        setNextTail
          {| l_size := l_size st;
             l_headHash := TxHash txReceipt;
             l_tailHash := l_tailHash st;
             l_tailReceiptItem := l_tailReceiptItem st;
             l_txHashArray := l_txHashArray st;
             l_events := l_events st;
             l_batch := l_batch st |}
          txReceipt
      else
        let item :=
          {| Receipt := Receipt (l_tailReceiptItem st);
             NextTxHash := TxHash txReceipt |} in
        match MarshalItem item with
        | Err _ =>
            (* logged, then [continue]: the item keeps its new next hash *)
            {| l_size := l_size st;
               l_headHash := l_headHash st;
               l_tailHash := l_tailHash st;
               l_tailReceiptItem := item;
               l_txHashArray := l_txHashArray st;
               l_events := l_events st;
               l_batch := l_batch st |}
        | Ok protoTail =>
            setNextTail
              {| l_size :=
                   if negb (Has d (l_tailHash st))
                   then wrap64 (l_size st + 1) else l_size st;
                 l_headHash := l_headHash st;
                 l_tailHash := l_tailHash st;
                 l_tailReceiptItem := item;
                 l_txHashArray := l_txHashArray st;
                 l_events := l_events st;
                 l_batch := batchSet (l_batch st) (l_tailHash st) protoTail |}
              txReceipt
        end
  end.

Definition linkReceipts (d : gmap bytes bytes) (st : locals)
    (receipts : list (option (EvmTxReceipt EventData))) : locals :=
  fold_left (linkReceipt d) receipts st.

(** receipts.go, lines 94-104: the final tail is staged. *)
Definition stageTail (d : gmap bytes bytes) (st : locals) : locals :=
  if is_empty (l_tailHash st) then st
  else
    match MarshalItem (l_tailReceiptItem st) with
    | Err _ => st
    | Ok protoTail =>
        {| l_size :=
             if negb (Has d (l_tailHash st))
             then wrap64 (l_size st + 1) else l_size st;
           l_headHash := l_headHash st;
           l_tailHash := l_tailHash st;
           l_tailReceiptItem := l_tailReceiptItem st;
           l_txHashArray := l_txHashArray st;
           l_events := l_events st;
           l_batch := batchSet (l_batch st) (l_tailHash st) protoTail |}
    end.

(** receipts.go, lines 118-127: parameters and per-height entries are
    staged and the batch is committed. *)
Definition finishCommit (s : EvmAuxStore) (st : locals) (size : Z)
    (headHash : bytes) (b : list batchOp) (height : Z)
  : outcome (error * EvmAuxStore) :=
  let b := setDBParams b size headHash (l_tailHash st) in
  let filter := GenBloomFilter (l_events st) in
  match setTxHashList b (l_txHashArray st) height with
  | (b, Some e) => Ret (Wrap (Some e) "append tx list", withBatch s b)
  | (b, None) =>
      let b := setBloomFilter b filter height in
      Ret (None, Commit (withBatch s b))
  end.

(** receipts.go, lines 106-117, then the rest of the function. *)
Definition evictAndFinish (s : EvmAuxStore) (st : locals) (height : Z)
  : outcome (error * EvmAuxStore) :=
  let size := l_size st in
  if maxReceipts s <? size then
    match removeOldEntries (db s) (l_batch st) (l_headHash st)
            (wrap64 (size - maxReceipts s)) with
    | (headHash, numDeleted, Some e, b) =>
        Ret (Wrap (Some e) "removing old receipts", withBatch s b)
    | (headHash, numDeleted, None, b) =>
        if size <? numDeleted
        then Ret (Wrap None "invalid count of deleted receipts", withBatch s b)
        else finishCommit s st (wrap64 (size - numDeleted)) headHash b height
    end
  else finishCommit s st size (l_headHash st) (l_batch st) height.

(** receipts.go, lines 41-56 read at store [s], whose batch has been reset:
    the parameters are read and the current tail item is loaded.  [inl e]
    is a [return e] of [CommitReceipts]; [inr st] are the locals the loop
    starts from. *)
Definition readChain (s : EvmAuxStore) : outcome (error + locals) :=
  match getDBParams (db s) with
  | Panic p => Panic p
  | Ret (_, _, _, Some e) => Ret (inl (Wrap (Some e) "getting db params."))
  | Ret (size, headHash, tailHash, None) =>
      let err : error := None in
      let start (tailReceiptItem : EvmTxReceiptListItem EventData) : locals :=
        {| l_size := size;
           l_headHash := headHash;
           l_tailHash := tailHash;
           l_tailReceiptItem := tailReceiptItem;
           l_txHashArray := [];
           l_events := [];
           l_batch := batch s |} in
      if negb (is_empty headHash) then
        let tailItemProto := Get (db s) tailHash in
        if is_empty tailItemProto then Ret (inl (Wrap err "cannot find tail"))
        else
          match UnmarshalItem tailItemProto with
          | Err msg =>
              Ret (inl (Wrap (Some (ErrExternal msg)) "unmarshalling tail"))
          | Ok it => Ret (inr (start it))
          end
      else Ret (inr (start emptyItem))
  end.

(** receipts.go, lines 41-127: [CommitReceipts] past its first test. *)
Definition commitBody (s : EvmAuxStore)
    (receipts : list (option (EvmTxReceipt EventData))) (height : Z)
  : outcome (error * EvmAuxStore) :=
  let s := Rollback s in
  match readChain s with
  | Panic p => Panic p
  | Ret (inl e) => Ret (e, s)
  | Ret (inr st) =>
      let st := linkReceipts (db s) st receipts in
      let st := stageTail (db s) st in
      evictAndFinish s st height
  end.

(** receipts.go, lines 36-128 *)
Definition CommitReceipts (s : EvmAuxStore)
    (receipts : list (option (EvmTxReceipt EventData))) (height : Z)
  : outcome (error * EvmAuxStore) :=
  if (length receipts =? 0)%nat || (maxReceipts s =? 0) then Ret (None, s)
  else commitBody s receipts height.

(** The receipts of the input that the loop does not skip at line 61. *)
Definition validReceipts (receipts : list (option (EvmTxReceipt EventData)))
  : list (EvmTxReceipt EventData) :=
  flat_map
    (fun r =>
       match r with
       | None => []
       | Some txReceipt => if is_empty (TxHash txReceipt) then [] else [txReceipt]
       end)
    receipts.

Definition isSuccess (r : EvmTxReceipt EventData) : bool :=
  Status r =? statusTxSuccess.

(** How many of the staged writes are to keys the store [d] does not hold. *)
Definition freshSets (d : gmap bytes bytes) (ops : list batchOp) : Z :=
  Z.of_nat
    (length
       (List.filter
          (fun op =>
             match op with
             | OpSet k _ => negb (Has d k)
             | OpDelete _ => false
             end)
          ops)).

(** The persisted chain parameters, as a reader of the store sees them: an
    absent size key reads as size zero. *)
Definition storedSize (d : gmap bytes bytes) : Z :=
  if Has d currentDbSizeKey then le_decode (firstn 8 (Get d currentDbSizeKey))
  else 0.

(** A walk of [n] nodes from [h]: every node is fetched and decodes, and
    the last one is [tail] and has no successor. *)
Fixpoint chainFrom (d : gmap bytes bytes) (n : nat) (h tail : bytes) : bool :=
  match n with
  | O => false
  | S n' =>
      if is_empty (Get d h) then false
      else
        match UnmarshalItem (Get d h) with
        | Err _ => false
        | Ok it =>
            match n' with
            | O => bool_decide (h = tail) && is_empty (NextTxHash it)
            | S _ => chainFrom d n' (NextTxHash it) tail
            end
        end
  end.

(** The chain invariant, after the specification's data model: size is
    zero exactly when head and tail are empty, and a positive size has head
    and tail resolve to stored nodes, with a walk of exactly that many
    nodes from head ending in tail. *)
Definition chainInvariant (d : gmap bytes bytes) : bool :=
  let size := storedSize d in
  let head := Get d headKey in
  let tail := Get d tailKey in
  Bool.eqb (size =? 0) (is_empty head && is_empty tail)
  && (if 0 <? size
      then negb (is_empty (Get d head)) && negb (is_empty (Get d tail))
           && chainFrom d (Z.to_nat size) head tail
      else true).

Definition isSet (op : batchOp) : bool :=
  match op with
  | OpSet _ _ => true
  | OpDelete _ => false
  end.

(** What a stretch of the function has staged and counted: the writes
    appended to the batch, and the size moved by the number of those whose
    key the store does not hold. *)
Definition accounted (d : gmap bytes bytes) (st st' : locals) : Prop :=
  exists ops,
    l_batch st' = l_batch st ++ ops
    /\ forallb isSet ops = true
    /\ wrap64 (l_size st') = wrap64 (l_size st + freshSets d ops)
    /\ (0 <= l_size st < 2 ^ 64 -> 0 <= l_size st' < 2 ^ 64).


(** The receipts the loop makes a tail of, out of the receipts it does not
    skip at line 61: all of them, except one whose predecessor's item
    fails to encode at line 70.  [item] and [head] are the tail item and
    the head hash on entry. *)
Fixpoint linkedReceipts (item : EvmTxReceiptListItem EventData) (head : bytes)
    (valid : list (EvmTxReceipt EventData)) : list (EvmTxReceipt EventData) :=
  match valid with
  | [] => []
  | r :: rest =>
      if is_empty head then
        r :: linkedReceipts {| Receipt := Some r; NextTxHash := [] |} (TxHash r) rest
      else
        let item' := {| Receipt := Receipt item; NextTxHash := TxHash r |} in
        match MarshalItem item' with
        | Err _ => linkedReceipts item' head rest
        | Ok _ =>
            r :: linkedReceipts {| Receipt := Some r; NextTxHash := [] |} head rest
        end
  end.

(** The operations a committing call stages last: the parameters, then the
    two per-height entries. *)
Definition closingOps (size : Z) (head tail : bytes) (height : Z)
    (hashList : bytes) (events : list EventData) : list batchOp :=
  [OpSet headKey head; OpSet tailKey tail;
   OpSet currentDbSizeKey (PutUint64 size);
   OpSet (evmTxHashKey height) hashList;
   OpSet (bloomFilterKey height) (GenBloomFilter events)].

End Store.

Arguments locals EventData : clear implicits.

(** ** The GoLevelDB wrapper (db/goleveldb.go) *)

Section Wrapper.
Context {LevelDB LevelDBSnapshot : Type}.

(** goleveldb's [GetSnapshot] on the engine handle [g.DB()], which returns
    a snapshot or an error. *)
Variable leveldb_GetSnapshot : LevelDB -> LevelDBSnapshot + err.

Record GoLevelDB : Type := { DB : LevelDB }.

Record GoLevelDBSnapshot : Type := { Snapshot : LevelDBSnapshot }.

(** goleveldb.go, lines 19-27: the result type has no error component. *)
Definition GetSnapshot (g : GoLevelDB) : outcome GoLevelDBSnapshot :=
  match leveldb_GetSnapshot (DB g) with
  | inr e => Panic (PanicError e)
  | inl snap => Ret {| Snapshot := snap |}
  end.

End Wrapper.

Arguments GoLevelDB LevelDB : clear implicits.
Arguments GoLevelDBSnapshot LevelDBSnapshot : clear implicits.

(** ** The walk of the eviction and the writes of the linking, as lists *)

Section Chain.
Context {EventData : Type} {X : Externals EventData}.

(** The keys met on a walk of at most [n] steps from [head] along the next
    hashes held in the store [d]: the walk stops at an empty hash and at a
    node that does not decode. *)
Fixpoint chainKeys (d : gmap bytes bytes) (n : nat) (head : bytes) : list bytes :=
  match n with
  | O => []
  | S n' =>
      if is_empty head then []
      else
        match UnmarshalItem (Get d head) with
        | Err _ => []
        | Ok it => head :: chainKeys d n' (NextTxHash it)
        end
  end.

(** The hash at which that walk stops. *)
Fixpoint chainEnd (d : gmap bytes bytes) (n : nat) (head : bytes) : bytes :=
  match n with
  | O => head
  | S n' =>
      if is_empty head then head
      else
        match UnmarshalItem (Get d head) with
        | Err _ => head
        | Ok it => chainEnd d n' (NextTxHash it)
        end
  end.

(** The nodes of a chain that starts with [item] under [key] and goes on
    with the receipts [valid]: each node points to the hash of the next
    receipt, and the last one to nothing new. *)
Fixpoint chainWrites (key : bytes) (item : EvmTxReceiptListItem EventData)
    (valid : list (EvmTxReceipt EventData))
  : list (bytes * EvmTxReceiptListItem EventData) :=
  match valid with
  | [] => [(key, item)]
  | r :: rest =>
      (key, {| Receipt := Receipt item; NextTxHash := TxHash r |})
      :: chainWrites (TxHash r) {| Receipt := Some r; NextTxHash := [] |} rest
  end.

(** The node writes expected of a call that starts from the locals [st]
    and links the receipts [valid]: on an empty chain the chain of the
    receipts, otherwise the chain that goes on from the current tail. *)
Definition nodeWrites (st : locals EventData)
    (valid : list (EvmTxReceipt EventData))
  : list (bytes * EvmTxReceiptListItem EventData) :=
  match valid with
  | [] =>
      if is_empty (l_tailHash st) then []
      else [(l_tailHash st, l_tailReceiptItem st)]
  | r :: rest =>
      if is_empty (l_headHash st)
      then chainWrites (TxHash r) {| Receipt := Some r; NextTxHash := [] |} rest
      else chainWrites (l_tailHash st) (l_tailReceiptItem st) valid
  end.

(** A staged operation is the write of a node: the key is the node's, the
    value its encoding. *)
Definition writesNode (op : batchOp)
    (w : bytes * EvmTxReceiptListItem EventData) : Prop :=
  exists p, MarshalItem (snd w) = Ok p /\ op = OpSet (fst w) p.

(** A node encodes. *)
Definition encodes (w : bytes * EvmTxReceiptListItem EventData) : Prop :=
  exists p, MarshalItem (snd w) = Ok p.

(** A node encodes to bytes that are not empty and decode to an item with
    the same receipt. *)
Definition readsBack (w : bytes * EvmTxReceiptListItem EventData) : Prop :=
  exists p it,
    MarshalItem (snd w) = Ok p /\ p <> []
    /\ UnmarshalItem p = Ok it /\ Receipt it = Receipt (snd w).

(** A node encodes to bytes that are not empty and decode to an item with
    the same next hash. *)
Definition readsBackNext (w : bytes * EvmTxReceiptListItem EventData) : Prop :=
  exists p it,
    MarshalItem (snd w) = Ok p /\ p <> []
    /\ UnmarshalItem p = Ok it /\ NextTxHash it = NextTxHash (snd w).

(** The next hash of the node stored under [k], when a node is stored
    there and decodes. *)
Definition nextOf (d : gmap bytes bytes) (k : bytes) : option bytes :=
  if is_empty (Get d k) then None
  else
    match UnmarshalItem (Get d k) with
    | Ok it => Some (NextTxHash it)
    | Err _ => None
    end.

(** The keys are those of nodes stored in [d], none of them empty, each
    pointing to the next of the list, and the last one to [nxt]. *)
Fixpoint linkedKeys (d : gmap bytes bytes) (keys : list bytes) (nxt : bytes)
  : Prop :=
  match keys with
  | [] => True
  | k :: rest =>
      k <> [] /\ nextOf d k = Some (List.hd nxt rest) /\ linkedKeys d rest nxt
  end.

(** The store [d] holds the chain [keys], oldest first: the parameters
    read from it are the length of the list, its first key and its last,
    the nodes under the keys are linked in list order, the last one has no
    successor, and no key comes twice. *)
Definition chainOf (d : gmap bytes bytes) (keys : list bytes) : Prop :=
  getDBParams d
  = Ret (Z.of_nat (length keys), List.hd [] keys, List.last keys [], None)
  /\ linkedKeys d keys []
  /\ List.NoDup keys.

(** A staged operation is a write to one of the keys [keys]. *)
Definition setsAmong (keys : list bytes) (op : batchOp) : Prop :=
  exists (k v : bytes), op = OpSet k v /\ In k keys.

(** The five keys a committing call writes besides the nodes. *)
Definition fixedKeys (height : Z) : list bytes :=
  [headKey; tailKey; currentDbSizeKey; evmTxHashKey height; bloomFilterKey height].

End Chain.

(** ** A concrete instance

    A small length-prefixed codec in the manner of the protobuf wire format
    (an absent field takes no bytes, so the empty input decodes to the
    empty item; a field longer than 255 bytes cannot be encoded), event
    records given by their encoded bytes, a one-byte filter, and a key
    layout.  The examples below are run on it. *)

Module Demo.

Definition countByte (n : nat) : option byte :=
  if (n <? 256)%nat then Byte.of_N (N.of_nat n) else None.

Definition putField (b : bytes) : option bytes :=
  match countByte (length b) with
  | Some n => Some (n :: b)
  | None => None
  end.

Definition takeField (b : bytes) : option (bytes * bytes) :=
  match b with
  | [] => None
  | n :: rest =>
      let k := N.to_nat (Byte.to_N n) in
      if (length rest <? k)%nat then None
      else Some (firstn k rest, skipn k rest)
  end.

Fixpoint putFields (l : list bytes) : option bytes :=
  match l with
  | [] => Some []
  | x :: rest =>
      match putField x, putFields rest with
      | Some a, Some b => Some (a ++ b)
      | _, _ => None
      end
  end.

Fixpoint takeFields (n : nat) (b : bytes) : option (list bytes * bytes) :=
  match n with
  | O => Some ([], b)
  | S n' =>
      match takeField b with
      | None => None
      | Some (x, rest) =>
          match takeFields n' rest with
          | None => None
          | Some (xs, rest') => Some (x :: xs, rest')
          end
      end
  end.

Definition encodeReceipt (r : EvmTxReceipt bytes) : option bytes :=
  match putField (TxHash r), countByte (length (Logs r)), putFields (Logs r) with
  | Some h, Some n, Some ls => Some (h ++ le_encode 4 (Status r) ++ n :: ls)
  | _, _, _ => None
  end.

Definition decodeReceipt (b : bytes) : option (EvmTxReceipt bytes) :=
  match takeField b with
  | None => None
  | Some (h, rest) =>
      if (length rest <? 5)%nat then None
      else
        match skipn 4 rest with
        | [] => None
        | n :: rest' =>
            match takeFields (N.to_nat (Byte.to_N n)) rest' with
            | Some (ls, []) =>
                Some {| TxHash := h; Status := le_decode (firstn 4 rest); Logs := ls |}
            | _ => None
            end
        end
  end.

Definition receiptTag : byte := x0a.
Definition nextTag : byte := x12.

Definition marshalItem (it : EvmTxReceiptListItem bytes) : result bytes :=
  let receiptPart :=
    match Receipt it with
    | None => Some []
    | Some r =>
        match encodeReceipt r with
        | None => None
        | Some e => option_map (cons receiptTag) (putField e)
        end
    end in
  let nextPart :=
    if is_empty (NextTxHash it) then Some []
    else option_map (cons nextTag) (putField (NextTxHash it)) in
  match receiptPart, nextPart with
  | Some a, Some b => Ok (a ++ b)
  | _, _ => Err "proto: field too long"
  end.

Definition unmarshalNext (r : option (EvmTxReceipt bytes)) (b : bytes)
  : result (EvmTxReceiptListItem bytes) :=
  match b with
  | [] => Ok {| Receipt := r; NextTxHash := [] |}
  | t :: rest =>
      if Byte.eqb t nextTag then
        match takeField rest with
        | Some (n, []) => Ok {| Receipt := r; NextTxHash := n |}
        | _ => Err "proto: bad next hash"
        end
      else Err "proto: unknown field"
  end.

Definition unmarshalItem (b : bytes) : result (EvmTxReceiptListItem bytes) :=
  match b with
  | [] => Ok {| Receipt := None; NextTxHash := [] |}
  | t :: rest =>
      if Byte.eqb t receiptTag then
        match takeField rest with
        | None => Err "proto: bad receipt"
        | Some (e, rest') =>
            match decodeReceipt e with
            | None => Err "proto: bad receipt"
            | Some r => unmarshalNext (Some r) rest'
            end
        end
      else unmarshalNext None b
  end.

Definition marshalTxHashList (l : list bytes) : result bytes :=
  match putFields l with
  | Some b => Ok b
  | None => Err "proto: field too long"
  end.

Definition genBloomFilter (events : list bytes) : bytes :=
  [byte_of_Z (fold_left Z.lor (map (fun e => le_decode (firstn 1 e)) events) 0)].

#[global] Instance externals : Externals bytes := {|
  MarshalItem := marshalItem;
  UnmarshalItem := unmarshalItem;
  MarshalTxHashList := marshalTxHashList;
  GenBloomFilter := genBloomFilter;
  currentDbSizeKey := list_byte_of_string "leveldb:size";
  headKey := list_byte_of_string "leveldb:head";
  tailKey := list_byte_of_string "leveldb:tail";
  bloomFilterKey := fun height => list_byte_of_string "bf" ++ le_encode 8 height;
  evmTxHashKey := fun height => list_byte_of_string "th" ++ le_encode 8 height
|}.

Definition emptyStore (max : Z) : EvmAuxStore :=
  {| db := ∅; batch := []; maxReceipts := max |}.

Definition hashA : bytes := list_byte_of_string "A".
Definition hashB : bytes := list_byte_of_string "B".
Definition hashC : bytes := list_byte_of_string "C".
Definition hashD : bytes := list_byte_of_string "D".

Definition receipt (h : bytes) (status : Z) (logs : list bytes)
  : option (EvmTxReceipt bytes) :=
  Some {| TxHash := h; Status := status; Logs := logs |}.

(** The store an outcome leaves; the input store when the call panics. *)
Definition storeAfter (s : EvmAuxStore) (o : outcome (error * EvmAuxStore))
  : EvmAuxStore :=
  match o with
  | Ret (_, s') => s'
  | Panic _ => s
  end.

Definition returned (o : outcome (error * EvmAuxStore)) : option error :=
  match o with
  | Ret (e, _) => Some e
  | Panic _ => None
  end.

Definition commit (s : EvmAuxStore) (receipts : list (option (EvmTxReceipt bytes)))
    (height : Z) : EvmAuxStore :=
  storeAfter s (CommitReceipts s receipts height).

(** Bound 2: [A, B] at height 1. *)
Definition afterAB : EvmAuxStore :=
  commit (emptyStore 2) [receipt hashA 1 []; receipt hashB 1 []] 1.

(** Then [C, A] at height 2: A is linked again as the tail, and evicted as
    the head. *)
Definition afterCA : EvmAuxStore :=
  commit afterAB [receipt hashC 1 []; receipt hashA 1 []] 2.

(** Bound 1: [A] at height 1, then [B] at height 2. *)
Definition afterA : EvmAuxStore :=
  commit (emptyStore 1) [receipt hashA 1 []] 1.

Definition afterA_B : EvmAuxStore :=
  commit afterA [receipt hashB 1 []] 2.

Definition eventX : bytes := x01 :: list_byte_of_string "transfer".
Definition eventY : bytes := x02 :: list_byte_of_string "revert".

(** A store in which the value under [hashA] is an item with a next hash
    and no receipt. *)
Definition bareItemStore : EvmAuxStore :=
  {| db := {[ hashA := [nextTag; x01] ++ hashB ]}; batch := []; maxReceipts := 2 |}.

(** The locals with which the loop of a call on [s] starts. *)
Definition startOf (s : EvmAuxStore) : locals bytes :=
  match readChain (Rollback s) with
  | Ret (inr st) => st
  | _ =>
      {| l_size := 0; l_headHash := []; l_tailHash := [];
         l_tailReceiptItem := emptyItem;
         l_txHashArray := []; l_events := []; l_batch := [] |}
  end.

Definition blockABC : list (option (EvmTxReceipt bytes)) :=
  [receipt hashA 1 []; receipt hashB 0 []; receipt hashC 1 []].

Definition blockMixed : list (option (EvmTxReceipt bytes)) :=
  [receipt hashA 1 [eventX]; None; receipt hashB 0 [eventY]; receipt [] 1 [eventX]].

Definition blockC : list (option (EvmTxReceipt bytes)) := [receipt hashC 1 []].

(** Bound 2: [A, B] at height 1, then [C] at height 2. *)
Definition afterABC : EvmAuxStore := commit afterAB blockC 2.

(** Bound 5: the block of [blockMixed] at height 1. *)
Definition afterMixed : EvmAuxStore := commit (emptyStore 5) blockMixed 1.

Definition receiptB : EvmTxReceipt bytes :=
  {| TxHash := hashB; Status := 1; Logs := [] |}.

Definition receiptBfailed : EvmTxReceipt bytes :=
  {| TxHash := hashB; Status := 0; Logs := [eventY] |}.

(** A block of receipts that are all skipped. *)
Definition blockSkipped : list (option (EvmTxReceipt bytes)) :=
  [None; receipt [] 1 [eventX]].

(** A store in which the size is held in one byte. *)
Definition shortSizeStore : EvmAuxStore :=
  {| db := {[ currentDbSizeKey := [x01] ]}; batch := []; maxReceipts := 2 |}.

Definition hashE : bytes := list_byte_of_string "E".
Definition hashF : bytes := list_byte_of_string "F".
Definition hashG : bytes := list_byte_of_string "G".
Definition hashH : bytes := list_byte_of_string "H".

(** Bound 3: [A, B, C] at height 1, then [D, A, E] at height 2, where the
    hash A comes again while it is the head: D is linked to A, and A is
    evicted by the same call, so D points to a hash under which nothing is
    stored. *)
Definition afterABC3 : EvmAuxStore :=
  commit (emptyStore 3) [receipt hashA 1 []; receipt hashB 1 []; receipt hashC 1 []] 1.

Definition afterDAE : EvmAuxStore :=
  commit afterABC3 [receipt hashD 1 []; receipt hashA 1 []; receipt hashE 1 []] 2.

(** Then [F] at height 3, which evicts C, and [G] at height 4, which evicts
    D and makes the hash D pointed to the head: size 3, head A, tail G, with
    nothing stored under A. *)
Definition afterF : EvmAuxStore := commit afterDAE [receipt hashF 1 []] 3.

Definition missingHeadStore : EvmAuxStore := commit afterF [receipt hashG 1 []] 4.

Definition blockH : list (option (EvmTxReceipt bytes)) := [receipt hashH 1 []].






(** The wrapper's engine, reduced to what [GetSnapshot] looks at: a closed
    engine refuses the snapshot. *)
Record engine : Type := { closed : bool; contents : list (bytes * bytes) }.

Definition engineGetSnapshot (e : engine) : list (bytes * bytes) + err :=
  if closed e then inr (ErrExternal "leveldb: closed") else inl (contents e).

Definition closedEngine : GoLevelDB engine :=
  {| DB := {| closed := true; contents := [] |} |}.

End Demo.

(** * Properties *)

Section Properties.
Context {EventData : Type} {X : Externals EventData}.

Implicit Types (s : EvmAuxStore) (d : gmap bytes bytes) (st : locals EventData).
Implicit Types (receipts : list (option (EvmTxReceipt EventData))).

(** ** Small facts about the store primitives *)

Lemma is_empty_true (b : bytes) : is_empty b = true <-> b = [].
Proof. destruct b; simpl; split; congruence. Qed.

Lemma is_empty_false (b : bytes) : is_empty b = false <-> b <> [].
Proof. destruct b; simpl; split; congruence. Qed.

Lemma Get_empty_lookup d (k : bytes) :
  Get d k = [] <-> d !! k = None \/ d !! k = Some [].
Proof.
  unfold Get. destruct (d !! k) as [v|]; split.
  - intros ->. now right.
  - intros [H|H]; congruence.
  - now left.
  - reflexivity.
Qed.

Lemma Has_false_Get d (k : bytes) : Has d k = false -> Get d k = [].
Proof. unfold Has, Get. destruct (d !! k); congruence. Qed.

Lemma db_Rollback s : db (Rollback s) = db s.
Proof. reflexivity. Qed.

Lemma guard_false s receipts :
  receipts <> [] -> maxReceipts s <> 0 ->
  (length receipts =? 0)%nat || (maxReceipts s =? 0) = false.
Proof.
  intros Hr Hm. apply orb_false_intro.
  - destruct receipts; [congruence | reflexivity].
  - now apply Z.eqb_neq.
Qed.

Lemma CommitReceipts_body s receipts height :
  receipts <> [] -> maxReceipts s <> 0 ->
  CommitReceipts s receipts height = commitBody s receipts height.
Proof.
  intros Hr Hm. unfold CommitReceipts. now rewrite guard_false.
Qed.

(** ** The no-op cases *)

(** C3: with an empty receipts list, or with the maximum number of
    receipts configured as zero, [CommitReceipts] returns nil and hands the
    store back as it was: the durable map (hence size, head, tail, every
    node and every per-height entry) and the batch are the same. *)
Theorem CommitReceipts_noop s receipts height :
  receipts = [] \/ maxReceipts s = 0 ->
  CommitReceipts s receipts height = Ret (None, s).
Proof.
  intros [-> | Hmax]; unfold CommitReceipts.
  - reflexivity.
  - rewrite Hmax, orb_true_r. reflexivity.
Qed.

(** ** Lookup *)

(** C6: [GetReceipt] answers [ErrTxReceiptNotFound] exactly when the store
    has nothing to give under the hash (the key is absent, or bound to zero
    bytes); otherwise, when the stored bytes decode to an item carrying a
    receipt, that receipt is returned; and the answer depends on the store
    only through what is stored under the hash itself, so not on the chain
    parameters or on any other node. *)
Theorem GetReceipt_lookup s (txHash : bytes) :
  ((exists r, GetReceipt s txHash = Ret (r, Some ErrTxReceiptNotFound))
   <-> (db s !! txHash = None \/ db s !! txHash = Some []))
  /\ (forall v it r,
        db s !! txHash = Some v -> v <> [] ->
        UnmarshalItem v = Ok it -> Receipt it = Some r ->
        GetReceipt s txHash = Ret (r, None))
  /\ (forall s', db s' !! txHash = db s !! txHash ->
        GetReceipt s' txHash = GetReceipt s txHash).
Proof.
  split; [|split].
  - rewrite <- Get_empty_lookup. unfold GetReceipt.
    destruct (is_empty (Get (db s) txHash)) eqn:He.
    + apply is_empty_true in He. split; eauto.
    + split.
      * intros [r Hr].
        destruct (UnmarshalItem (Get (db s) txHash)) as [it|msg]; [|discriminate].
        destruct (Receipt it); discriminate.
      * intros H. apply is_empty_true in H. congruence.
  - intros v it r Hv Hne Hit Hr. unfold GetReceipt, Get. rewrite Hv.
    apply is_empty_false in Hne. rewrite Hne, Hit, Hr. reflexivity.
  - intros s' Heq. unfold GetReceipt, Get. now rewrite Heq.
Qed.

(** C10: when the value stored under the hash is non-empty and decodes to
    a list item without a receipt, [GetReceipt] dereferences a nil pointer:
    it panics, and returns neither a receipt nor an error. *)
Theorem GetReceipt_nil_receipt_panics s (txHash : bytes) it :
  Get (db s) txHash <> [] ->
  UnmarshalItem (Get (db s) txHash) = Ok it ->
  Receipt it = None ->
  GetReceipt s txHash = Panic PanicNilDereference.
Proof.
  intros Hne Hit Hr. unfold GetReceipt.
  apply is_empty_false in Hne. now rewrite Hne, Hit, Hr.
Qed.

(** ** The missing tail *)

Lemma readChain_missing_tail s size (headHash tailHash : bytes) :
  getDBParams (db s) = Ret (size, headHash, tailHash, None) ->
  headHash <> [] ->
  Get (db s) tailHash = [] ->
  readChain s = Ret (inl None).
Proof.
  intros Hp Hh Ht. unfold readChain. rewrite Hp.
  apply is_empty_false in Hh. rewrite Hh, Ht. reflexivity.
Qed.

(** C1 (refuted on the code): with a non-empty receipts list and a
    non-zero bound, when the stored parameters have a non-empty head and
    nothing is stored under the tail hash, [CommitReceipts] returns nil:
    the error it wraps at that point is itself nil, and wrapping nil gives
    nil.  Nothing is written. *)
Theorem CommitReceipts_missing_tail_returns_nil
    s receipts height size (headHash tailHash : bytes) :
  receipts <> [] -> maxReceipts s <> 0 ->
  getDBParams (db s) = Ret (size, headHash, tailHash, None) ->
  headHash <> [] ->
  Get (db s) tailHash = [] ->
  CommitReceipts s receipts height = Ret (None, Rollback s).
Proof.
  intros Hr Hm Hp Hh Ht.
  rewrite CommitReceipts_body by assumption.
  unfold commitBody.
  rewrite (readChain_missing_tail (Rollback s) size headHash tailHash); auto.
Qed.

(** ** Skipped receipts *)

Lemma linkReceipt_nil d st : linkReceipt d st None = st.
Proof. reflexivity. Qed.

Lemma linkReceipt_empty_hash d st (r : EvmTxReceipt EventData) :
  TxHash r = [] -> linkReceipt d st (Some r) = st.
Proof. intros H. unfold linkReceipt. now rewrite H. Qed.

Lemma linkReceipts_valid d receipts :
  forall st,
    linkReceipts d st receipts = linkReceipts d st (map Some (validReceipts receipts)).
Proof.
  unfold linkReceipts, validReceipts.
  induction receipts as [|r rest IH]; intros st; [reflexivity|].
  cbn [fold_left flat_map].
  destruct r as [r|].
  - destruct (is_empty (TxHash r)) eqn:He; cbn [app map fold_left].
    + apply is_empty_true in He. rewrite linkReceipt_empty_hash by assumption.
      apply IH.
    + apply IH.
  - rewrite linkReceipt_nil. apply IH.
Qed.


(** ** The running size *)

Lemma wrap64_range z : 0 <= wrap64 z < 2 ^ 64.
Proof. unfold wrap64. apply Z.mod_pos_bound. lia. Qed.

Lemma wrap64_small z : 0 <= z < 2 ^ 64 -> wrap64 z = z.
Proof. intros H. unfold wrap64. now apply Z.mod_small. Qed.

Lemma wrap64_add_l a b : wrap64 (wrap64 a + b) = wrap64 (a + b).
Proof. unfold wrap64. apply Zplus_mod_idemp_l. Qed.

Lemma freshSets_app d (a b : list batchOp) :
  freshSets d (a ++ b) = freshSets d a + freshSets d b.
Proof.
  unfold freshSets. rewrite List.filter_app, List.length_app. lia.
Qed.

Lemma freshSets_nil d : freshSets d [] = 0.
Proof. reflexivity. Qed.

Lemma freshSets_set d (k v : bytes) :
  freshSets d [OpSet k v] = if negb (Has d k) then 1 else 0.
Proof. unfold freshSets. simpl. now destruct (Has d k). Qed.

(** One pass through the loop body stages at most one write, of the tail
    of that moment, and counts it when its key is not in the store. *)
Lemma linkReceipt_size d st (r : option (EvmTxReceipt EventData)) :
  let st' := linkReceipt d st r in
  (l_batch st' = l_batch st /\ l_size st' = l_size st)
  \/ (exists protoTail,
        l_batch st' = l_batch st ++ [OpSet (l_tailHash st) protoTail]
        /\ l_size st'
           = if negb (Has d (l_tailHash st)) then wrap64 (l_size st + 1)
             else l_size st).
Proof.
  unfold linkReceipt. destruct r as [r|]; [|now left].
  destruct (is_empty (TxHash r)); [now left|].
  destruct (is_empty (l_headHash st)); [now left|].
  destruct (MarshalItem _) as [p|msg]; [|now left].
  right. exists p. split; reflexivity.
Qed.

Lemma stageTail_size d st :
  let st' := stageTail d st in
  (l_batch st' = l_batch st /\ l_size st' = l_size st)
  \/ (exists protoTail,
        l_batch st' = l_batch st ++ [OpSet (l_tailHash st) protoTail]
        /\ l_size st'
           = if negb (Has d (l_tailHash st)) then wrap64 (l_size st + 1)
             else l_size st).
Proof.
  unfold stageTail.
  destruct (is_empty (l_tailHash st)); [now left|].
  destruct (MarshalItem _) as [p|msg]; [|now left].
  right. exists p. split; reflexivity.
Qed.

Lemma accounted_refl d st : accounted d st st.
Proof.
  exists []. rewrite app_nil_r, freshSets_nil, Z.add_0_r. auto.
Qed.

Lemma accounted_step d st st' (k : bytes) :
  (l_batch st' = l_batch st /\ l_size st' = l_size st)
  \/ (exists protoTail,
        l_batch st' = l_batch st ++ [OpSet k protoTail]
        /\ l_size st'
           = if negb (Has d k) then wrap64 (l_size st + 1) else l_size st) ->
  accounted d st st'.
Proof.
  intros [[Hb Hs] | [p [Hb Hs]]].
  - exists []. rewrite app_nil_r, freshSets_nil, Z.add_0_r, Hs. auto.
  - exists [OpSet k p]. rewrite freshSets_set, Hs.
    split; [assumption|]. split; [reflexivity|]. split.
    + destruct (Has d k); simpl.
      * now rewrite Z.add_0_r.
      * unfold wrap64. now rewrite Z.mod_mod by lia.
    + destruct (Has d k); simpl; intros; [lia | apply wrap64_range].
Qed.

Lemma accounted_trans d st1 st2 st3 :
  accounted d st1 st2 -> accounted d st2 st3 -> accounted d st1 st3.
Proof.
  intros [o1 [Hb1 [Hs1 [Hz1 Hr1]]]] [o2 [Hb2 [Hs2 [Hz2 Hr2]]]].
  exists (o1 ++ o2). split; [|split; [|split]].
  - now rewrite Hb2, Hb1, app_assoc.
  - rewrite forallb_app, Hs1, Hs2. reflexivity.
  - rewrite Hz2, <- wrap64_add_l, Hz1, wrap64_add_l, freshSets_app.
    f_equal. lia.
  - intros H. apply Hr2, Hr1, H.
Qed.

Lemma linkReceipts_accounted d receipts :
  forall st, accounted d st (linkReceipts d st receipts).
Proof.
  unfold linkReceipts.
  induction receipts as [|r rest IH]; intros st; cbn [fold_left].
  - apply accounted_refl.
  - eapply accounted_trans; [|apply IH].
    eapply accounted_step, linkReceipt_size.
Qed.




(** ** Eviction *)

Lemma removeOldLoop_walk d (n : nat) :
  forall (head : bytes) (k : Z) (b : list batchOp),
    0 <= k -> k + Z.of_nat n < 2 ^ 64 ->
    match removeOldLoop d n head k b with
    | inl (head', c, e, b') =>
        exists deleted msg,
          b' = b ++ map OpDelete deleted
          /\ c = k + Z.of_nat (length deleted)
          /\ (length deleted < n)%nat
          /\ e = Some (ErrWrapped (ErrExternal msg)
                        ("unmarshal head " ++ string_of_list_byte (Get d head')))
    | inr (head', c, b') =>
        exists deleted,
          b' = b ++ map OpDelete deleted
          /\ c = k + Z.of_nat (length deleted)
          /\ (length deleted <= n)%nat
          /\ ((length deleted < n)%nat -> head' = [])
    end.
Proof.
  induction n as [|n IH]; intros head k b Hk Hn; cbn [removeOldLoop].
  - exists []. cbn [map length]. rewrite app_nil_r.
    repeat split; try lia.
  - destruct (is_empty head) eqn:He.
    + apply is_empty_true in He. exists []. cbn [map length].
      rewrite app_nil_r. repeat split; try lia. auto.
    + destruct (UnmarshalItem (Get d head)) as [it|msg] eqn:Hu.
      * assert (Hw : wrap64 (k + 1) = k + 1) by (apply wrap64_small; lia).
        rewrite Hw.
        specialize (IH (NextTxHash it) (k + 1) (batchDelete b head)).
        destruct (removeOldLoop d n (NextTxHash it) (k + 1) (batchDelete b head))
          as [[[[h' c] e] b'] | [[h' c] b']].
        -- destruct IH as [deleted [m [Hb [Hc [Hl Herr]]]]]; try lia.
           exists (head :: deleted), m. cbn [map length].
           unfold batchDelete in Hb. rewrite <- app_assoc in Hb.
           repeat split; auto; lia.
        -- destruct IH as [deleted [Hb [Hc [Hl Hh]]]]; try lia.
           exists (head :: deleted). cbn [map length].
           unfold batchDelete in Hb. rewrite <- app_assoc in Hb.
           repeat split; auto; try lia.
           intros H. apply Hh. lia.
      * exists [], msg. cbn [map length]. rewrite app_nil_r.
        repeat split; auto; lia.
Qed.

(** [removeOldEntries] deletes along the walk, reports how many deletions
    it staged, and reports an error whenever they are fewer than asked. *)
Lemma removeOldEntries_count d (b : list batchOp) (head : bytes) (number : Z) :
  0 <= number < 2 ^ 64 ->
  forall head' c e b',
    removeOldEntries d b head number = (head', c, e, b') ->
    exists deleted,
      b' = b ++ map OpDelete deleted
      /\ c = Z.of_nat (length deleted)
      /\ c <= number
      /\ (e = None -> c = number)
      /\ (c < number ->
          (e = Some (ErrUnableToDelete number c) /\ head' = [])
          \/ (exists msg,
                e = Some (ErrWrapped (ErrExternal msg)
                            ("unmarshal head "
                             ++ string_of_list_byte (Get d head'))))).
Proof.
  intros Hn head' c e b' Hr. unfold removeOldEntries in Hr.
  pose proof (removeOldLoop_walk d (Z.to_nat number) head 0 b) as Hw.
  destruct (removeOldLoop d (Z.to_nat number) head 0 b)
    as [[[[h1 c1] e1] b1] | [[h1 c1] b1]].
  - injection Hr as -> -> -> ->.
    destruct Hw as [deleted [msg [Hb [Hc [Hl He]]]]]; try lia.
    exists deleted. repeat split; auto; try lia.
    + intros H. congruence.
    + intros _. right. exists msg. exact He.
  - destruct Hw as [deleted [Hb [Hc [Hl Hh]]]]; try lia.
    destruct (c1 <? number) eqn:Hlt.
    + injection Hr as -> -> <- ->. apply Z.ltb_lt in Hlt.
      exists deleted. repeat split; auto; try lia.
      * intros H. discriminate.
      * intros _. left. split; [reflexivity|]. apply Hh. lia.
    + injection Hr as -> -> <- ->. apply Z.ltb_ge in Hlt.
      exists deleted. repeat split; auto; try lia.
Qed.

(** Evicting a head that has no successor in the durable store gives the
    empty head, whatever has been staged onto that node in the batch: the
    walk reads the store only. *)
Lemma removeOldEntries_at_durable_tail d (b : list batchOp) (head : bytes) it :
  head <> [] ->
  UnmarshalItem (Get d head) = Ok it ->
  NextTxHash it = [] ->
  removeOldEntries d b head 1 = ([], 1, None, b ++ [OpDelete head]).
Proof.
  intros Hh Hit Hnext. unfold removeOldEntries.
  change (Z.to_nat 1) with 1%nat. cbn [removeOldLoop].
  apply is_empty_false in Hh. rewrite Hh, Hit, Hnext. reflexivity.
Qed.

(** X15: the short walk the code does detect.  When the commit has to
    evict (the size after linking exceeds the maximum) and the walk from
    head stages fewer deletions than the [size - max] it was asked for,
    [removeOldEntries] returns the number it did stage together with an
    error (the next pointer ran out, or a node on the way did not decode),
    and [CommitReceipts] returns that error, wrapped, without committing:
    the durable store is the one it started from.  The number is that of
    the deletions staged, whether or not a node was stored under the key. *)
Theorem short_eviction_fails_commit s receipts height st0 :
  receipts <> [] -> maxReceipts s <> 0 ->
  readChain (Rollback s) = Ret (inr st0) ->
  let st := stageTail (db s) (linkReceipts (db s) st0 receipts) in
  let number := wrap64 (l_size st - maxReceipts s) in
  maxReceipts s < l_size st ->
  forall head' numDeleted e b',
    removeOldEntries (db s) (l_batch st) (l_headHash st) number
    = (head', numDeleted, e, b') ->
    numDeleted < number ->
    exists cause deleted,
      e = Some cause
      /\ b' = l_batch st ++ map OpDelete deleted
      /\ numDeleted = Z.of_nat (length deleted)
      /\ ((cause = ErrUnableToDelete number numDeleted /\ head' = [])
          \/ exists msg text, cause = ErrWrapped (ErrExternal msg) text)
      /\ CommitReceipts s receipts height
         = Ret (Some (ErrWrapped cause "removing old receipts"),
                withBatch (Rollback s) b')
      /\ db (withBatch (Rollback s) b') = db s.
Proof.
  intros Hr Hm Hread st number Hmax head' numDeleted e b' Hrem Hlt.
  destruct (removeOldEntries_count (db s) (l_batch st) (l_headHash st) number
              (wrap64_range _) _ _ _ _ Hrem)
    as [deleted [Hb [Hc [Hle [_ Hshort]]]]].
  assert (He : exists cause, e = Some cause
            /\ ((cause = ErrUnableToDelete number numDeleted /\ head' = [])
                \/ exists msg text, cause = ErrWrapped (ErrExternal msg) text)).
  { destruct (Hshort Hlt) as [[-> ->] | [msg ->]]; eexists; split; eauto. }
  destruct He as [cause [-> Hcause]].
  exists cause, deleted. repeat split; auto.
  rewrite CommitReceipts_body by assumption.
  unfold commitBody. rewrite Hread. rewrite db_Rollback.
  fold st. unfold evictAndFinish. rewrite db_Rollback.
  change (maxReceipts (Rollback s)) with (maxReceipts s).
  apply Z.ltb_lt in Hmax. rewrite Hmax.
  fold number. rewrite Hrem. reflexivity.
Qed.

(** ** The per-height entries *)

Lemma Z_of_byte_range (x : byte) : 0 <= Z_of_byte x < 256.
Proof.
  unfold Z_of_byte. pose proof (Byte.to_N_bounded x). lia.
Qed.

Lemma le_decode_bound (b : bytes) :
  0 <= le_decode b < 256 ^ Z.of_nat (length b).
Proof.
  induction b as [|x rest IH]; cbn [le_decode length].
  - simpl. lia.
  - rewrite Nat2Z.inj_succ, Z.pow_succ_r by lia.
    pose proof (Z_of_byte_range x). lia.
Qed.

Lemma Uint64_range (b : bytes) v : Uint64 b = Ret v -> 0 <= v < 2 ^ 64.
Proof.
  unfold Uint64. destruct (length b <? 8)%nat; [discriminate|].
  intros [= <-].
  pose proof (le_decode_bound (firstn 8 b)) as H.
  assert (Hl : (length (firstn 8 b) <= 8)%nat) by apply List.firstn_le_length.
  assert (256 ^ Z.of_nat (length (firstn 8 b)) <= 256 ^ 8).
  { apply Z.pow_le_mono_r; lia. }
  change (2 ^ 64) with (256 ^ 8). lia.
Qed.

Lemma Z_of_byte_of_Z z : Z_of_byte (byte_of_Z z) = z mod 256.
Proof.
  unfold Z_of_byte, byte_of_Z.
  assert (Hz : 0 <= z mod 256 < 256) by (apply Z.mod_pos_bound; lia).
  destruct (Byte.of_N (Z.to_N (z mod 256))) as [b|] eqn:Hb.
  - apply Byte.to_of_N in Hb. rewrite Hb. lia.
  - apply Byte.of_N_None_iff in Hb. lia.
Qed.

Lemma le_decode_encode (n : nat) :
  forall z, le_decode (le_encode n z) = z mod 256 ^ Z.of_nat n.
Proof.
  induction n as [|n IH]; intros z; cbn [le_encode le_decode].
  - simpl. now rewrite Z.mod_1_r.
  - rewrite IH, Z_of_byte_of_Z, Nat2Z.inj_succ, Z.pow_succ_r by lia.
    symmetry. apply Z.rem_mul_r; lia.
Qed.

Lemma length_le_encode (n : nat) : forall z, length (le_encode n z) = n.
Proof.
  induction n as [|n IH]; intros z; cbn [le_encode length]; [reflexivity|].
  now rewrite IH.
Qed.

(** The size is read back as it was written. *)
Lemma Uint64_PutUint64 v : Uint64 (PutUint64 v) = Ret (wrap64 v).
Proof.
  unfold Uint64, PutUint64. rewrite length_le_encode.
  change (8 <? 8)%nat with false. cbn iota.
  rewrite firstn_all2 by (rewrite length_le_encode; lia).
  rewrite le_decode_encode. reflexivity.
Qed.

Lemma getDBParams_range d size (head tail : bytes) e :
  getDBParams d = Ret (size, head, tail, e) -> 0 <= size < 2 ^ 64.
Proof.
  unfold getDBParams.
  destruct (negb (Has d currentDbSizeKey)); [intros [= <- _ _ _]; lia|].
  destruct (Uint64 (Get d currentDbSizeKey)) as [v|p] eqn:Hu; [|discriminate].
  apply Uint64_range in Hu.
  destruct (v =? 0); [intros [= <- _ _ _]; lia|].
  destruct (is_empty (Get d headKey)); [intros [= <- _ _ _]; lia|].
  destruct (is_empty (Get d tailKey)); [intros [= <- _ _ _]; lia|].
  intros [= <- _ _ _]. exact Hu.
Qed.

Lemma readChain_start s st0 :
  readChain s = Ret (inr st0) ->
  0 <= l_size st0 < 2 ^ 64
  /\ l_txHashArray st0 = [] /\ l_events st0 = [] /\ l_batch st0 = batch s.
Proof.
  unfold readChain.
  destruct (getDBParams (db s)) as [[[[size head] tail] e]|p] eqn:Hp;
    [|discriminate].
  apply getDBParams_range in Hp.
  destruct e; [discriminate|].
  destruct (negb (is_empty head)).
  - destruct (is_empty (Get (db s) tail)); [discriminate|].
    destruct (UnmarshalItem (Get (db s) tail)); [|discriminate].
    intros [= <-]. auto.
  - intros [= <-]. auto.
Qed.

Lemma setNextTail_entries st (r : EvmTxReceipt EventData) :
  l_txHashArray (setNextTail st r)
  = l_txHashArray st ++ map TxHash (List.filter isSuccess [r])
  /\ l_events (setNextTail st r) = l_events st ++ flat_map Logs [r].
Proof.
  unfold setNextTail, isSuccess. cbn [l_txHashArray l_events List.filter flat_map].
  rewrite app_nil_r. split; [|reflexivity].
  destruct (Status r =? statusTxSuccess); cbn [map]; [reflexivity|].
  now rewrite app_nil_r.
Qed.

(** The receipt [r] is made the tail: the induction hypothesis is used at
    the locals that follow, and what [setNextTail] appended is put in
    front. *)
Ltac linked_step IH r :=
  match goal with
  | |- context [fold_left _ _ (setNextTail ?a ?b)] =>
      let IH1 := fresh "IH1" in
      let IH2 := fresh "IH2" in
      let E1 := fresh "E1" in
      let E2 := fresh "E2" in
      destruct (IH (setNextTail a b)) as [IH1 IH2];
      destruct (setNextTail_entries a b) as [E1 E2];
      cbn [l_tailReceiptItem l_headHash setNextTail] in IH1, IH2;
      rewrite IH1, IH2, E1, E2;
      cbn [l_txHashArray l_events List.filter flat_map app];
      rewrite !app_nil_r;
      destruct (isSuccess r); cbn [map app]; rewrite <- ?app_assoc; auto
  end.

(** The loop appends, for the receipts it links and in their order, the
    hash when the status is success, and the logs whatever the status. *)
Lemma linkReceipts_entries d (valid : list (EvmTxReceipt EventData)) :
  Forall (fun r => is_empty (TxHash r) = false) valid ->
  forall st,
    let linked := linkedReceipts (l_tailReceiptItem st) (l_headHash st) valid in
    let st' := linkReceipts d st (map Some valid) in
    l_txHashArray st' = l_txHashArray st ++ map TxHash (List.filter isSuccess linked)
    /\ l_events st' = l_events st ++ flat_map Logs linked.
Proof.
  unfold linkReceipts.
  induction 1 as [|r rest Hr Hrest IH]; intros st; cbn [map fold_left linkedReceipts].
  - cbn [List.filter map flat_map]. now rewrite !app_nil_r.
  - unfold linkReceipt at 2 4. rewrite Hr.
    destruct (is_empty (l_headHash st)) eqn:Hh.
    + linked_step IH r.
    + destruct (MarshalItem _) as [p|msg].
      * linked_step IH r.
      * match goal with |- context [fold_left _ _ ?a] =>
          destruct (IH a) as [IH1 IH2]
        end.
        cbn [l_tailReceiptItem l_headHash l_txHashArray l_events] in IH1, IH2.
        auto.
Qed.

Lemma validReceipts_nonempty receipts :
  Forall (fun r => is_empty (TxHash r) = false) (validReceipts receipts).
Proof.
  unfold validReceipts.
  induction receipts as [|[r|] rest IH]; cbn [flat_map]; auto.
  destruct (is_empty (TxHash r)) eqn:He; cbn [app]; auto.
Qed.

(** When every item encodes, the loop links every receipt it does not skip. *)
Lemma linkedReceipts_all (valid : list (EvmTxReceipt EventData)) :
  (forall it, exists p, MarshalItem it = Ok p) ->
  forall item (head : bytes), linkedReceipts item head valid = valid.
Proof.
  intros Hm. induction valid as [|r rest IH]; intros item head;
    cbn [linkedReceipts]; [reflexivity|].
  destruct (is_empty head); [now rewrite IH|].
  destruct (Hm {| Receipt := Receipt item; NextTxHash := TxHash r |}) as [p ->].
  now rewrite IH.
Qed.

Lemma linkedReceipts_sublist (valid : list (EvmTxReceipt EventData)) :
  forall item (head : bytes) r,
    In r (linkedReceipts item head valid) -> In r valid.
Proof.
  induction valid as [|v rest IH]; intros item head r; cbn [linkedReceipts];
    [auto|].
  destruct (is_empty head).
  - intros [<-|H]; [now left | right; eauto].
  - destruct (MarshalItem _).
    + intros [<-|H]; [now left | right; eauto].
    + intros H. right. eauto.
Qed.

Lemma stageTail_keeps d st :
  l_txHashArray (stageTail d st) = l_txHashArray st
  /\ l_events (stageTail d st) = l_events st
  /\ l_tailHash (stageTail d st) = l_tailHash st
  /\ l_headHash (stageTail d st) = l_headHash st.
Proof.
  unfold stageTail. destruct (is_empty (l_tailHash st)); [auto|].
  destruct (MarshalItem _); auto.
Qed.

Lemma finishCommit_commits s st size (head : bytes) (b : list batchOp) height s' :
  finishCommit s st size head b height = Ret (None, s') ->
  exists p,
    MarshalTxHashList (l_txHashArray st) = Ok p
    /\ s' = Commit (withBatch s
                      (b ++ closingOps size head (l_tailHash st) height p
                              (l_events st))).
Proof.
  unfold finishCommit, setTxHashList.
  destruct (MarshalTxHashList (l_txHashArray st)) as [p|msg]; [|discriminate].
  intros [= <-]. exists p. split; [reflexivity|].
  unfold setBloomFilter, setDBParams, batchSet, closingOps.
  now rewrite <- !app_assoc.
Qed.

(** A call that gets past the eviction either fails or commits: with the
    size and the maximum in the range of their type, the test on the count
    of deleted receipts at line 113 never fires. *)
Lemma evictAndFinish_commits s st height s' :
  0 <= maxReceipts s ->
  0 <= l_size st < 2 ^ 64 ->
  evictAndFinish s st height = Ret (None, s') ->
  exists size (head : bytes) (b : list batchOp) p,
    MarshalTxHashList (l_txHashArray st) = Ok p
    /\ s' = Commit (withBatch s
                      (b ++ closingOps size head (l_tailHash st) height p
                              (l_events st))).
Proof.
  intros Hmax Hsize. unfold evictAndFinish.
  destruct (maxReceipts s <? l_size st) eqn:Hlt.
  - apply Z.ltb_lt in Hlt.
    destruct (removeOldEntries _ _ _ _) as [[[h' c] e] b'] eqn:Hrem.
    destruct e as [e|]; [discriminate|].
    destruct (removeOldEntries_count _ _ _ _ (wrap64_range _) _ _ _ _ Hrem)
      as [deleted [_ [_ [_ [Hc _]]]]].
    specialize (Hc eq_refl).
    rewrite wrap64_small in Hc by lia.
    assert (Hge : (l_size st <? c) = false) by (apply Z.ltb_ge; lia).
    rewrite Hge. intros H. apply finishCommit_commits in H.
    destruct H as [p [Hp ->]]. eauto 6.
  - intros H. apply finishCommit_commits in H.
    destruct H as [p [Hp ->]]. eauto 6.
Qed.

Lemma closing_lookup s (b : list batchOp) size (head tail : bytes) height
    (p : bytes) (events : list EventData) :
  let s' := Commit (withBatch s (b ++ closingOps size head tail height p events)) in
  db s' !! bloomFilterKey height = Some (GenBloomFilter events)
  /\ (evmTxHashKey height <> bloomFilterKey height ->
      db s' !! evmTxHashKey height = Some p).
Proof.
  cbn [Commit withBatch db batch]. rewrite fold_left_app.
  unfold closingOps. cbn [fold_left applyOp]. split.
  - apply lookup_insert_eq.
  - intros Hne. rewrite lookup_insert_ne by congruence.
    apply lookup_insert_eq.
Qed.

(** C4: in a call that commits, the success-hash list written for the
    height holds the hashes of the linked receipts whose status is success,
    in input order, and of no other, while the filter written for the
    height is built from the logs of all linked receipts, whatever their
    status.  The linked receipts are the receipts not skipped by the loop:
    all the non-nil receipts with a non-empty hash, when every item
    encodes. *)
Theorem height_entries_follow_status s receipts height st0 s' :
  0 <= maxReceipts s ->
  evmTxHashKey height <> bloomFilterKey height ->
  receipts <> [] -> maxReceipts s <> 0 ->
  readChain (Rollback s) = Ret (inr st0) ->
  CommitReceipts s receipts height = Ret (None, s') ->
  let linked :=
    linkedReceipts (l_tailReceiptItem st0) (l_headHash st0)
      (validReceipts receipts) in
  (exists p,
     MarshalTxHashList (map TxHash (List.filter isSuccess linked)) = Ok p
     /\ db s' !! evmTxHashKey height = Some p)
  /\ db s' !! bloomFilterKey height = Some (GenBloomFilter (flat_map Logs linked))
  /\ (forall r, In r linked -> In (Some r) receipts /\ TxHash r <> [])
  /\ ((forall it, exists p, MarshalItem it = Ok p) ->
      linked = validReceipts receipts).
Proof.
  intros Hmax Hkeys Hr Hm Hread Hcommit linked.
  rewrite CommitReceipts_body in Hcommit by assumption.
  unfold commitBody in Hcommit. rewrite Hread, db_Rollback in Hcommit.
  destruct (readChain_start _ _ Hread) as [Hsize [Hh [He Hb]]].
  set (st1 := linkReceipts (db s) st0 receipts) in *.
  assert (Hacc : accounted (db s) st0 (stageTail (db s) st1)).
  { eapply accounted_trans; [apply linkReceipts_accounted|].
    eapply accounted_step, stageTail_size. }
  destruct Hacc as [_ [_ [_ [_ Hrange]]]].
  apply evictAndFinish_commits in Hcommit; auto.
  destruct Hcommit as [size [head [b [p [Hp ->]]]]].
  destruct (stageTail_keeps (db s) st1) as [K1 [K2 [K3 K4]]].
  rewrite K1 in Hp. rewrite K2.
  destruct (linkReceipts_entries (db s) _ (validReceipts_nonempty receipts) st0)
    as [E1 E2].
  rewrite <- linkReceipts_valid in E1, E2. fold st1 in E1, E2. fold linked in E1, E2.
  rewrite Hh in E1. rewrite He in E2. cbn [app] in E1, E2.
  rewrite E1 in Hp. rewrite E2.
  match goal with |- context [Commit (withBatch ?a (?b ++ closingOps ?c ?d ?e ?f ?g ?h))] =>
    destruct (closing_lookup a b c d e f g h) as [L1 L2]
  end.
  cbn zeta in L1, L2. change (db (Rollback s)) with (db s) in *.
  split; [|split; [|split]].
  - exists p. split; [exact Hp | now apply L2].
  - exact L1.
  - intros r Hin. apply linkedReceipts_sublist in Hin.
    unfold validReceipts in Hin. apply in_flat_map in Hin.
    destruct Hin as [[x|] [Hx Hin]]; [|destruct Hin].
    destruct (is_empty (TxHash x)) eqn:Hex; [destruct Hin|].
    destruct Hin as [<-|[]]. split; [exact Hx|]. now apply is_empty_false.
  - intros Htot. apply linkedReceipts_all, Htot.
Qed.

(** ** The missing head *)

(** Applying staged operations keeps a key absent when none of them
    writes it, and bound when none of them deletes it. *)
Lemma applied_keeps_absent (ops : list batchOp) :
  forall d (k : bytes),
    d !! k = None ->
    (forall v, ~ In (OpSet k v) ops) ->
    fold_left applyOp ops d !! k = None.
Proof.
  induction ops as [|op rest IH]; intros d k Hk Hops; cbn [fold_left]; [exact Hk|].
  apply IH.
  - destruct op as [k' v | k']; cbn [applyOp].
    + rewrite lookup_insert_ne; [exact Hk|].
      intros ->. apply (Hops v). now left.
    + destruct (decide (k' = k)) as [->|Hne].
      * apply lookup_delete_eq.
      * now rewrite lookup_delete_ne.
  - intros v Hin. apply (Hops v). now right.
Qed.

Lemma applied_keeps_bound (ops : list batchOp) :
  forall d (k : bytes),
    d !! k <> None ->
    forallb isSet ops = true ->
    fold_left applyOp ops d !! k <> None.
Proof.
  induction ops as [|op rest IH]; intros d k Hk Hops; cbn [fold_left]; [exact Hk|].
  cbn [forallb] in Hops. apply andb_prop in Hops. destruct Hops as [Hop Hrest].
  apply IH; [|exact Hrest].
  destruct op as [k' v | k']; [|discriminate]. cbn [applyOp].
  destruct (decide (k' = k)) as [->|Hne].
  - rewrite lookup_insert_eq. discriminate.
  - now rewrite lookup_insert_ne.
Qed.

(** The linking and the final staging stage writes only, onto the batch
    that [Rollback] has emptied. *)
Lemma linking_stages_sets s receipts st0 :
  readChain (Rollback s) = Ret (inr st0) ->
  let st := stageTail (db s) (linkReceipts (db s) st0 receipts) in
  forallb isSet (l_batch st) = true /\ 0 <= l_size st < 2 ^ 64.
Proof.
  intros Hread st.
  destruct (readChain_start _ _ Hread) as [Hsize [_ [_ Hb]]].
  assert (H : accounted (db s) st0 st).
  { eapply accounted_trans; [apply linkReceipts_accounted|].
    eapply accounted_step, stageTail_size. }
  destruct H as [ops [Hops [Hsets [_ Hrange]]]].
  split; [|now apply Hrange].
  rewrite Hops, Hb. exact Hsets.
Qed.

(** C5 (refuted on the code): a hash under which nothing is stored is
    counted as an evicted node.  The commit has to evict one node (the size
    after linking is the maximum plus one), the head is a hash under which
    the durable store holds nothing and which the call has not written,
    and the codec decodes the empty value to an item without a next hash,
    as protobuf does.  The walk cannot delete the node it was asked for,
    yet [removeOldEntries] reads the empty value at line 166, decodes it,
    stages the deletion of the absent key and returns the count 1 with a
    nil error; [CommitReceipts] returns nil and commits the size lowered
    by one, with an empty head.  The store it leaves is the one the
    writes of the linking and the closing writes alone produce: the
    deletion has removed nothing, and every key stored before the call is
    still stored. *)
Theorem eviction_counts_missing_head s receipts height st0 it0 (hashList : bytes) :
  receipts <> [] -> 0 < maxReceipts s ->
  readChain (Rollback s) = Ret (inr st0) ->
  let st := stageTail (db s) (linkReceipts (db s) st0 receipts) in
  UnmarshalItem [] = Ok it0 -> NextTxHash it0 = [] ->
  l_size st = maxReceipts s + 1 ->
  l_headHash st <> [] ->
  db s !! l_headHash st = None ->
  (forall v, ~ In (OpSet (l_headHash st) v) (l_batch st)) ->
  MarshalTxHashList (l_txHashArray st) = Ok hashList ->
  let closing :=
    closingOps (maxReceipts s) [] (l_tailHash st) height hashList (l_events st) in
  removeOldEntries (db s) (l_batch st) (l_headHash st) 1
  = ([], 1, None, l_batch st ++ [OpDelete (l_headHash st)])
  /\ exists s',
       CommitReceipts s receipts height = Ret (None, s')
       /\ db s' = fold_left applyOp (l_batch st ++ closing) (db s)
       /\ (forall k : bytes, db s !! k <> None -> db s' !! k <> None).
Proof.
  intros Hr Hmax Hread st Hu Hnext Hsize Hhead Habsent Hfresh Hlist closing.
  destruct (linking_stages_sets s receipts st0 Hread) as [Hsets Hrange].
  fold st in Hsets, Hrange.
  assert (Hrem : removeOldEntries (db s) (l_batch st) (l_headHash st) 1
                 = ([], 1, None, l_batch st ++ [OpDelete (l_headHash st)])).
  { unfold removeOldEntries. change (Z.to_nat 1) with 1%nat.
    cbn [removeOldLoop].
    apply is_empty_false in Hhead. rewrite Hhead.
    unfold Get. rewrite Habsent, Hu, Hnext. reflexivity. }
  split; [exact Hrem|].
  set (ops := (l_batch st ++ [OpDelete (l_headHash st)]) ++ closing).
  exists (Commit (withBatch (Rollback s) ops)).
  assert (Hdb : db (Commit (withBatch (Rollback s) ops))
                = fold_left applyOp (l_batch st ++ closing) (db s)).
  { cbn [Commit withBatch db batch Rollback]. unfold ops.
    rewrite !fold_left_app. f_equal. cbn [fold_left applyOp].
    apply delete_id.
    apply applied_keeps_absent; assumption. }
  split; [|split].
  - rewrite CommitReceipts_body by (assumption || lia).
    unfold commitBody. rewrite Hread, db_Rollback. fold st.
    unfold evictAndFinish. rewrite db_Rollback.
    change (maxReceipts (Rollback s)) with (maxReceipts s).
    assert (Hlt : (maxReceipts s <? l_size st) = true) by (apply Z.ltb_lt; lia).
    rewrite Hlt.
    replace (l_size st - maxReceipts s) with 1 by lia.
    rewrite (wrap64_small 1) by lia. rewrite Hrem.
    assert (Hge : (l_size st <? 1) = false) by (apply Z.ltb_ge; lia).
    rewrite Hge.
    replace (l_size st - 1) with (maxReceipts s) by lia.
    rewrite wrap64_small by lia.
    unfold finishCommit, setTxHashList. rewrite Hlist.
    do 2 f_equal. f_equal. unfold ops, closing.
    unfold setBloomFilter, setDBParams, batchSet, closingOps.
    now rewrite <- !app_assoc.
  - exact Hdb.
  - intros k Hk. rewrite Hdb. apply applied_keeps_bound; [exact Hk|].
    rewrite forallb_app, Hsets. reflexivity.
Qed.

End Properties.

(** ** The snapshot of the GoLevelDB wrapper *)

Section WrapperProperties.
Context {LevelDB LevelDBSnapshot : Type}.
Variable leveldb_GetSnapshot : LevelDB -> LevelDBSnapshot + err.

(** C9: when the engine's snapshot acquisition returns an error,
    [GetSnapshot] panics with that error; its result carries no error at
    all, so the caller is never handed the failure as a value. *)
Theorem GetSnapshot_panics_on_engine_error (g : GoLevelDB LevelDB) (e : err) :
  leveldb_GetSnapshot (DB g) = inr e ->
  GetSnapshot leveldb_GetSnapshot g = Panic (PanicError e)
  /\ (forall snap, GetSnapshot leveldb_GetSnapshot g <> Ret snap).
Proof.
  intros H. unfold GetSnapshot. rewrite H. split; [reflexivity|].
  intros snap. discriminate.
Qed.

End WrapperProperties.

(** * The properties at work on the concrete instance *)

Import Demo.

Lemma CommitReceipts_noop_witness :
  CommitReceipts (withBatch (Rollback afterAB) [OpDelete hashA])
    ([] : list (option (EvmTxReceipt bytes))) 7
  = Ret (None, withBatch (Rollback afterAB) [OpDelete hashA]).
Proof.
  apply (CommitReceipts_noop (withBatch (Rollback afterAB) [OpDelete hashA]) [] 7).
  left. reflexivity.
Defined.

Lemma GetReceipt_nil_receipt_witness :
  GetReceipt bareItemStore hashA = Panic PanicNilDereference.
Proof.
  apply (GetReceipt_nil_receipt_panics bareItemStore hashA
           {| Receipt := None; NextTxHash := hashB |}).
  - vm_compute. discriminate.
  - vm_compute. reflexivity.
  - reflexivity.
Defined.

(** The store in which the tail is missing is one the code produces by
    itself: bound 2, [A, B] committed, then [C, A]. *)
Lemma CommitReceipts_missing_tail_witness :
  CommitReceipts afterCA [receipt hashD 1 []] 3 = Ret (None, Rollback afterCA).
Proof.
  apply (CommitReceipts_missing_tail_returns_nil afterCA [receipt hashD 1 []] 3
           2 hashB hashA).
  - discriminate.
  - vm_compute. discriminate.
  - vm_compute. reflexivity.
  - discriminate.
  - vm_compute. reflexivity.
Defined.

(** The missing tail on a store the code gets to by itself: bound 2;
    [A, B] and then [C, A] are committed, each call returning nil.  The
    stored parameters are then size 2, head B, tail A, with nothing stored
    under A.  The next call, with the single receipt D, returns nil, not an
    error, and leaves the durable store as it was. *)
Theorem missing_tail_is_not_reported :
  returned (CommitReceipts (emptyStore 2) [receipt hashA 1 []; receipt hashB 1 []] 1)
  = Some None
  /\ returned (CommitReceipts afterAB [receipt hashC 1 []; receipt hashA 1 []] 2)
     = Some None
  /\ getDBParams (db afterCA) = Ret (2, hashB, hashA, None)
  /\ db afterCA !! hashA = None
  /\ returned (CommitReceipts afterCA [receipt hashD 1 []] 3) = Some None
  /\ db (commit afterCA [receipt hashD 1 []] 3) = db afterCA.
Proof.
  repeat split; vm_compute; reflexivity.
Qed.

(** C2 (refuted on the code): the chain invariant does not survive every
    sequence of successful calls from the empty store.  Bound 1; [A] is
    committed, then [B], each call returning nil.  After the first call
    the chain invariant holds.  The second call evicts A by reading the node of A in
    the durable store, where its next hash is still empty (the link from A
    to B is only staged), so the head it stores is empty: size 1, head
    empty, tail B, and the invariant is broken. *)
Theorem eviction_breaks_chain_invariant :
  chainInvariant (db (emptyStore 1)) = true
  /\ returned (CommitReceipts (emptyStore 1) [receipt hashA 1 []] 1) = Some None
  /\ chainInvariant (db afterA) = true
  /\ returned (CommitReceipts afterA [receipt hashB 1 []] 2) = Some None
  /\ storedSize (db afterA_B) = 1
  /\ Get (db afterA_B) headKey = []
  /\ Get (db afterA_B) tailKey = hashB
  /\ chainInvariant (db afterA_B) = false.
Proof.
  repeat split; vm_compute; reflexivity.
Qed.


Lemma short_eviction_fails_commit_witness :
  exists cause s',
    CommitReceipts (emptyStore 1) blockABC 1
    = Ret (Some (ErrWrapped cause "removing old receipts"), s')
    /\ db s' = db (emptyStore 1).
Proof.
  edestruct (short_eviction_fails_commit (emptyStore 1) blockABC 1
               (startOf (emptyStore 1)))
    as [cause [deleted [_ [_ [_ [_ [Hc Hd]]]]]]].
  - discriminate.
  - vm_compute. discriminate.
  - vm_compute. reflexivity.
  - vm_compute. reflexivity.
  - vm_compute. reflexivity.
  - vm_compute. reflexivity.
  - exists cause. eexists. split; eassumption.
Defined.

Lemma height_entries_follow_status_witness :
  db (commit (emptyStore 2) blockMixed 1) !! evmTxHashKey 1
  = Some (x01 :: hashA)
  /\ db (commit (emptyStore 2) blockMixed 1) !! bloomFilterKey 1
     = Some (GenBloomFilter [eventX; eventY]).
Proof.
  destruct (height_entries_follow_status (emptyStore 2) blockMixed 1
              (startOf (emptyStore 2)) (commit (emptyStore 2) blockMixed 1))
    as [[p [Hp Hlist]] [Hbloom _]].
  - vm_compute. discriminate.
  - vm_compute. discriminate.
  - discriminate.
  - vm_compute. discriminate.
  - vm_compute. reflexivity.
  - vm_compute. reflexivity.
  - split.
    + rewrite Hlist. vm_compute in Hp. injection Hp as <-. reflexivity.
    + exact Hbloom.
Defined.

Lemma GetSnapshot_panics_witness :
  GetSnapshot engineGetSnapshot closedEngine
  = Panic (PanicError (ErrExternal "leveldb: closed"))
  /\ (forall snap, GetSnapshot engineGetSnapshot closedEngine <> Ret snap).
Proof.
  apply (GetSnapshot_panics_on_engine_error engineGetSnapshot closedEngine).
  reflexivity.
Defined.

Lemma GetReceipt_lookup_witness :
  Get (db afterA_B) headKey = []
  /\ GetReceipt afterA_B hashB
     = Ret ({| TxHash := hashB; Status := 1; Logs := [] |}, None)
  /\ (exists r, GetReceipt afterA_B hashA = Ret (r, Some ErrTxReceiptNotFound)).
Proof.
  destruct (GetReceipt_lookup afterA_B hashB) as [_ [Hfound _]].
  destruct (GetReceipt_lookup afterA_B hashA) as [[_ Hmissing] _].
  split; [vm_compute; reflexivity|]. split.
  - eapply Hfound.
    + vm_compute. reflexivity.
    + discriminate.
    + vm_compute. reflexivity.
    + reflexivity.
  - apply Hmissing. left. vm_compute. reflexivity.
Defined.



(** The store of the missing head is one the code produces by itself:
    bound 3; [A, B, C], [D, A, E], [F] and [G] committed; then [H]. *)
Lemma eviction_counts_missing_head_witness :
  removeOldEntries (db missingHeadStore)
    (l_batch (stageTail (db missingHeadStore)
                (linkReceipts (db missingHeadStore) (startOf missingHeadStore)
                   blockH)))
    hashA 1
  = ([], 1, None,
     l_batch (stageTail (db missingHeadStore)
                (linkReceipts (db missingHeadStore) (startOf missingHeadStore)
                   blockH))
     ++ [OpDelete hashA])
  /\ returned (CommitReceipts missingHeadStore blockH 5) = Some None
  /\ (forall k : bytes,
        db missingHeadStore !! k <> None ->
        db (commit missingHeadStore blockH 5) !! k <> None).
Proof.
  destruct (eviction_counts_missing_head missingHeadStore blockH 5
              (startOf missingHeadStore)
              {| Receipt := None; NextTxHash := [] |} (x01 :: hashH))
    as [Hrem [s' [Hcall [_ Hkeep]]]].
  - discriminate.
  - reflexivity.
  - vm_compute. reflexivity.
  - reflexivity.
  - reflexivity.
  - vm_compute. reflexivity.
  - vm_compute. discriminate.
  - vm_compute. reflexivity.
  - intros v. vm_compute. intros [H | [H | []]]; discriminate.
  - vm_compute. reflexivity.
  - split; [exact Hrem|]. unfold commit. rewrite Hcall. split; [reflexivity|].
    exact Hkeep.
Defined.

(** The missing head, from end to end, on a store the code gets to by
    itself.  Bound 3; [A, B, C], [D, A, E], [F] and [G] are committed, each
    call returning nil.  The stored parameters are then size 3, head A,
    tail G, with nothing stored under A.  The block [H] brings the size to
    4, so one node is to be evicted.  The call returns nil; afterwards the
    stored size is 3 and the stored head is empty, while E, F, G and H are
    all in the store: no node has been evicted and nothing has been
    reported.  [getDBParams] itself refuses the parameters this leaves. *)
Theorem missing_head_is_not_evicted :
  returned (CommitReceipts (emptyStore 3)
              [receipt hashA 1 []; receipt hashB 1 []; receipt hashC 1 []] 1)
  = Some None
  /\ returned (CommitReceipts afterABC3
                 [receipt hashD 1 []; receipt hashA 1 []; receipt hashE 1 []] 2)
     = Some None
  /\ returned (CommitReceipts afterDAE [receipt hashF 1 []] 3) = Some None
  /\ returned (CommitReceipts afterF [receipt hashG 1 []] 4) = Some None
  /\ getDBParams (db missingHeadStore) = Ret (3, hashA, hashG, None)
  /\ db missingHeadStore !! hashA = None
  /\ map (Has (db missingHeadStore)) [hashE; hashF; hashG; hashH]
     = [true; true; true; false]
  /\ returned (CommitReceipts missingHeadStore blockH 5) = Some None
  /\ storedSize (db (commit missingHeadStore blockH 5)) = 3
  /\ Get (db (commit missingHeadStore blockH 5)) headKey = []
  /\ Get (db (commit missingHeadStore blockH 5)) tailKey = hashH
  /\ map (Has (db (commit missingHeadStore blockH 5))) [hashE; hashF; hashG; hashH]
     = [true; true; true; true]
  /\ getDBParams (db (commit missingHeadStore blockH 5))
     = Ret (0, [], [], Some (ErrNew "no head for non zero size receipt db")).
Proof.
  repeat split; vm_compute; reflexivity.
Qed.

(** ** The specification's scenarios, run *)

(** Bound 2: [A, B] at height 1 gives size 2, head A, tail B; [C] at height
    2 evicts A and gives size 2, head B, tail C. *)
Example scenario_bound_two :
  getDBParams (db afterAB) = Ret (2, hashA, hashB, None)
  /\ getDBParams (db (commit afterAB [receipt hashC 1 []] 2))
     = Ret (2, hashB, hashC, None)
  /\ db (commit afterAB [receipt hashC 1 []] 2) !! hashA = None
  /\ chainInvariant (db (commit afterAB [receipt hashC 1 []] 2)) = true.
Proof. repeat split; vm_compute; reflexivity. Qed.

(** A block larger than the bound cannot be committed at all: the eviction
    walks into nodes that are only staged. *)
Example scenario_block_over_bound :
  returned (CommitReceipts (emptyStore 1) blockABC 1)
  = Some (Some (ErrWrapped (ErrUnableToDelete 2 1) "removing old receipts")).
Proof. vm_compute. reflexivity. Qed.

(** The same hash twice in one block is counted twice and stored once. *)
Example scenario_duplicate_hash :
  storedSize (db (commit (emptyStore 5) [receipt hashA 1 []; receipt hashA 1 []] 1)) = 2
  /\ chainInvariant
       (db (commit (emptyStore 5) [receipt hashA 1 []; receipt hashA 1 []] 1))
     = false.
Proof. repeat split; vm_compute; reflexivity. Qed.

(** * Further properties of the store *)

Section MoreProperties.
Context {EventData : Type} {X : Externals EventData}.

Implicit Types (s : EvmAuxStore) (d : gmap bytes bytes) (st : locals EventData).
Implicit Types (receipts : list (option (EvmTxReceipt EventData))).

(** ** Reading the parameters *)

Lemma getDBParams_panics d :
  (exists p, getDBParams d = Panic p)
  <-> (exists v, d !! currentDbSizeKey = Some v /\ (length v < 8)%nat).
Proof.
  unfold getDBParams, Has, Get, Uint64.
  destruct (d !! currentDbSizeKey) as [v|]; cbn [negb].
  - destruct (length v <? 8)%nat eqn:Hl.
    + apply Nat.ltb_lt in Hl. split; eauto.
    + apply Nat.ltb_ge in Hl. split.
      * intros [p Hp].
        destruct (le_decode (firstn 8 v) =? 0); [discriminate|].
        destruct (is_empty _); [discriminate|].
        destruct (is_empty _); discriminate.
      * intros [v' [[= <-] Hv]]. lia.
  - split; [intros [p Hp]; discriminate | intros [v [Hv _]]; discriminate].
Qed.

(** X1: whatever the store holds, [getDBParams] never reports a positive
    size together with an empty head or an empty tail.  Without an error it
    returns either the empty chain (size 0, no head, no tail) or a size in
    the range of [uint64] with the non-empty head and tail stored under
    their keys; with an error it returns the empty triple. *)
Theorem getDBParams_shape d size (head tail : bytes) (e : error) :
  getDBParams d = Ret (size, head, tail, e) ->
  (e = None /\ size = 0 /\ head = [] /\ tail = [])
  \/ (e = None /\ 0 < size < 2 ^ 64
      /\ head = Get d headKey /\ head <> []
      /\ tail = Get d tailKey /\ tail <> [])
  \/ (size = 0 /\ head = [] /\ tail = []
      /\ (e = Some (ErrNew "no head for non zero size receipt db")
           /\ Get d headKey = []
          \/ e = Some (ErrNew "no tail for non zero size receipt db")
             /\ Get d tailKey = [])).
Proof.
  intros H. pose proof (getDBParams_range _ _ _ _ _ H) as Hrange.
  unfold getDBParams in H.
  destruct (negb (Has d currentDbSizeKey)); [injection H as <- <- <- <-; auto|].
  destruct (Uint64 (Get d currentDbSizeKey)) as [v|p]; [|discriminate].
  destruct (v =? 0) eqn:Hv; [injection H as <- <- <- <-; auto|].
  apply Z.eqb_neq in Hv.
  destruct (is_empty (Get d headKey)) eqn:Hh.
  { apply is_empty_true in Hh. injection H as <- <- <- <-. right. right. auto 10. }
  destruct (is_empty (Get d tailKey)) eqn:Ht.
  { apply is_empty_true in Ht. injection H as <- <- <- <-. right. right. auto 10. }
  apply is_empty_false in Hh, Ht.
  injection H as <- <- <- <-. right. left. repeat split; auto; lia.
Qed.

Lemma lookup_three_sets d (b : list batchOp) (k1 k2 k3 v1 v2 v3 : bytes) :
  k1 <> k2 -> k1 <> k3 -> k2 <> k3 ->
  let d' := fold_left applyOp (b ++ [OpSet k1 v1; OpSet k2 v2; OpSet k3 v3]) d in
  d' !! k1 = Some v1 /\ d' !! k2 = Some v2 /\ d' !! k3 = Some v3.
Proof.
  intros H12 H13 H23. rewrite fold_left_app. cbn [fold_left applyOp].
  repeat split.
  - rewrite !lookup_insert_ne by congruence. apply lookup_insert_eq.
  - rewrite lookup_insert_ne by congruence. apply lookup_insert_eq.
  - apply lookup_insert_eq.
Qed.

Lemma setDBParams_ops (b : list batchOp) size (head tail : bytes) :
  setDBParams b size head tail
  = b ++ [OpSet headKey head; OpSet tailKey tail;
          OpSet currentDbSizeKey (PutUint64 size)].
Proof.
  unfold setDBParams, batchSet. now rewrite <- !app_assoc.
Qed.

(** X2: the parameters are read back as they were written.  When the
    three parameter keys are distinct, applying a batch that ends with
    [setDBParams size head tail], for a positive size in the range of
    [uint64] and a non-empty head and tail, gives a store from which
    [getDBParams] returns exactly that size, head and tail, whatever the
    store held and whatever was staged before. *)
Theorem params_round_trip d (b : list batchOp) size (head tail : bytes) :
  headKey <> tailKey -> headKey <> currentDbSizeKey ->
  tailKey <> currentDbSizeKey ->
  0 < size < 2 ^ 64 -> head <> [] -> tail <> [] ->
  getDBParams (fold_left applyOp (setDBParams b size head tail) d)
  = Ret (size, head, tail, None).
Proof.
  intros H12 H13 H23 Hsize Hh Ht. rewrite setDBParams_ops.
  destruct (lookup_three_sets d b headKey tailKey currentDbSizeKey
              head tail (PutUint64 size) H12 H13 H23) as [L1 [L2 L3]].
  cbn zeta in L1, L2, L3.
  unfold getDBParams, Has, Get. rewrite L1, L2, L3. cbn [negb].
  rewrite Uint64_PutUint64, wrap64_small by lia.
  assert (Hz : (size =? 0) = false) by (apply Z.eqb_neq; lia).
  rewrite Hz.
  apply is_empty_false in Hh, Ht. now rewrite Hh, Ht.
Qed.

(** ** Panics and failures of a commit *)

Lemma finishCommit_returns s st size (head : bytes) (b : list batchOp) height :
  exists e s', finishCommit s st size head b height = Ret (e, s')
               /\ maxReceipts s' = maxReceipts s
               /\ (e <> None -> db s' = db s).
Proof.
  unfold finishCommit, setTxHashList.
  destruct (MarshalTxHashList (l_txHashArray st)) as [p|msg].
  - do 2 eexists. split; [reflexivity|]. split; [reflexivity|]. congruence.
  - do 2 eexists. split; [reflexivity|]. split; reflexivity.
Qed.

Lemma evictAndFinish_returns s st height :
  exists e s', evictAndFinish s st height = Ret (e, s')
               /\ maxReceipts s' = maxReceipts s
               /\ (e <> None -> db s' = db s).
Proof.
  unfold evictAndFinish.
  destruct (maxReceipts s <? l_size st).
  - destruct (removeOldEntries _ _ _ _) as [[[h' c] [e|]] b'].
    + do 2 eexists. repeat split.
    + destruct (l_size st <? c).
      * do 2 eexists. repeat split.
      * apply finishCommit_returns.
  - apply finishCommit_returns.
Qed.

Lemma readChain_panics s :
  forall p, readChain s = Panic p <-> getDBParams (db s) = Panic p.
Proof.
  intros p. unfold readChain.
  destruct (getDBParams (db s)) as [[[[size head] tail] [e|]]|q].
  - split; discriminate.
  - destruct (negb (is_empty head)).
    + destruct (is_empty (Get (db s) tail)); [split; discriminate|].
      destruct (UnmarshalItem _); split; discriminate.
    + split; discriminate.
  - split; intros [= ->]; reflexivity.
Qed.

(** X3: failures of the storage engine and of the codec aside,
    [CommitReceipts] panics in one situation only: the receipts list is not
    empty, the bound is not zero, and the value stored under the size key
    is shorter than the eight bytes that are read from it. *)
Theorem CommitReceipts_panics_iff s receipts height :
  (exists p, CommitReceipts s receipts height = Panic p)
  <-> (receipts <> [] /\ maxReceipts s <> 0
       /\ exists v, db s !! currentDbSizeKey = Some v /\ (length v < 8)%nat).
Proof.
  rewrite <- getDBParams_panics. unfold CommitReceipts.
  destruct ((length receipts =? 0)%nat || (maxReceipts s =? 0)) eqn:Hg.
  - split; [intros [p Hp]; discriminate|].
    intros [Hr [Hm _]]. rewrite guard_false in Hg by assumption. discriminate.
  - apply orb_false_elim in Hg. destruct Hg as [Hl Hm].
    assert (Hr : receipts <> []) by (intros ->; discriminate).
    apply Z.eqb_neq in Hm.
    unfold commitBody.
    destruct (readChain (Rollback s)) as [[e|st]|q] eqn:Hread.
    + split; [intros [p Hp]; discriminate|].
      intros [_ [_ [p Hp]]]. apply (readChain_panics (Rollback s)) in Hp.
      congruence.
    + split.
      * intros [p Hp].
        destruct (evictAndFinish_returns (Rollback s)
                    (stageTail (db (Rollback s))
                       (linkReceipts (db (Rollback s)) st receipts)) height)
          as [e [s' [He _]]].
        congruence.
      * intros [_ [_ [p Hp]]]. apply (readChain_panics (Rollback s)) in Hp.
        congruence.
    + apply readChain_panics in Hread. split; eauto.
Qed.

(** X4: a call of [CommitReceipts] that returns an error has not touched
    the durable store: every error is returned before the batch is
    committed.  The configured bound is the same as well. *)
Theorem CommitReceipts_error_keeps_store s receipts height (e : err) s' :
  CommitReceipts s receipts height = Ret (Some e, s') ->
  db s' = db s /\ maxReceipts s' = maxReceipts s.
Proof.
  unfold CommitReceipts.
  destruct ((length receipts =? 0)%nat || (maxReceipts s =? 0));
    [discriminate|].
  unfold commitBody.
  destruct (readChain (Rollback s)) as [[e0|st]|q]; [| |discriminate].
  - intros [= _ <-]. split; reflexivity.
  - destruct (evictAndFinish_returns (Rollback s)
                (stageTail (db (Rollback s))
                   (linkReceipts (db (Rollback s)) st receipts)) height)
      as [e1 [s1 [He [Hmax Hdb]]]].
    rewrite He. intros [= -> ->]. split; [|exact Hmax].
    apply Hdb. discriminate.
Qed.

(** ** The eviction walk *)

Lemma removeOldLoop_chain d (n : nat) :
  forall (head : bytes) (k : Z) (b : list batchOp),
    0 <= k -> k + Z.of_nat n < 2 ^ 64 ->
    match removeOldLoop d n head k b with
    | inl (head', c, e, b') =>
        b' = b ++ map OpDelete (chainKeys d n head)
        /\ c = k + Z.of_nat (length (chainKeys d n head))
        /\ head' = chainEnd d n head
        /\ (length (chainKeys d n head) < n)%nat
        /\ e <> None
    | inr (head', c, b') =>
        b' = b ++ map OpDelete (chainKeys d n head)
        /\ c = k + Z.of_nat (length (chainKeys d n head))
        /\ head' = chainEnd d n head
        /\ ((length (chainKeys d n head) < n)%nat -> head' = [])
    end.
Proof.
  induction n as [|n IH]; intros head k b Hk Hn;
    cbn [removeOldLoop chainKeys chainEnd].
  - cbn [map length]. rewrite app_nil_r. repeat split; try lia.
  - destruct (is_empty head) eqn:He.
    + apply is_empty_true in He. cbn [map length]. rewrite app_nil_r.
      repeat split; auto; lia.
    + destruct (UnmarshalItem (Get d head)) as [it|msg].
      * rewrite wrap64_small by lia.
        specialize (IH (NextTxHash it) (k + 1) (batchDelete b head)).
        destruct (removeOldLoop d n (NextTxHash it) (k + 1) (batchDelete b head))
          as [[[[h' c] e] b'] | [[h' c] b']].
        -- destruct IH as [Hb [Hc [Hh [Hl Herr]]]]; try lia.
           unfold batchDelete in Hb. rewrite <- app_assoc in Hb.
           cbn [map length]. repeat split; auto; lia.
        -- destruct IH as [Hb [Hc [Hh Hl]]]; try lia.
           unfold batchDelete in Hb. rewrite <- app_assoc in Hb.
           cbn [map length]. repeat split; auto; try lia.
           intros H. apply Hl. lia.
      * cbn [map length]. rewrite app_nil_r.
        repeat split; auto; try lia; discriminate.
Qed.

Lemma chainKeys_length d (n : nat) :
  forall head : bytes, (length (chainKeys d n head) <= n)%nat.
Proof.
  induction n as [|n IH]; intros head; cbn [chainKeys length]; [lia|].
  destruct (is_empty head); cbn [length]; [lia|].
  destruct (UnmarshalItem (Get d head)) as [it|msg]; cbn [length]; [|lia].
  specialize (IH (NextTxHash it)). lia.
Qed.

Lemma removeOldEntries_chain d (b : list batchOp) (head : bytes) (number : Z)
    (head' : bytes) (c : Z) (e : error) (b' : list batchOp) :
  0 <= number < 2 ^ 64 ->
  removeOldEntries d b head number = (head', c, e, b') ->
  let walk := chainKeys d (Z.to_nat number) head in
  b' = b ++ map OpDelete walk
  /\ c = Z.of_nat (length walk)
  /\ head' = chainEnd d (Z.to_nat number) head
  /\ (e = None <-> Z.of_nat (length walk) = number).
Proof.
  intros Hn Hr walk. unfold removeOldEntries in Hr.
  pose proof (removeOldLoop_chain d (Z.to_nat number) head 0 b) as Hw.
  destruct (removeOldLoop d (Z.to_nat number) head 0 b)
    as [[[[h1 c1] e1] b1] | [[h1 c1] b1]].
  - injection Hr as -> -> -> ->.
    destruct Hw as [Hb [Hc [Hh [Hl He]]]]; try lia.
    fold walk in Hb, Hc, Hl. repeat split; auto; try lia.
    intros H. contradiction.
  - destruct Hw as [Hb [Hc [Hh Hl]]]; try lia.
    fold walk in Hb, Hc, Hl.
    pose proof (chainKeys_length d (Z.to_nat number) head) as Hlen.
    fold walk in Hlen.
    destruct (c1 <? number) eqn:Hlt.
    + injection Hr as -> -> <- ->. apply Z.ltb_lt in Hlt.
      repeat split; auto; try lia. discriminate.
    + injection Hr as -> -> <- ->. apply Z.ltb_ge in Hlt.
      repeat split; auto; lia.
Qed.

(** X5: the eviction is first in, first out along the stored chain.
    [removeOldEntries] stages the deletion of the keys met on the walk from
    [head] along the next hashes of the durable store, in walk order and
    after everything staged before; it returns how many they are and the
    hash at which the walk stopped, never more than the number asked for;
    and it returns no error exactly when the walk was as long as that
    number. *)
Theorem removeOldEntries_walk d (b : list batchOp) (head : bytes) (number : Z)
    (head' : bytes) (c : Z) (e : error) (b' : list batchOp) :
  0 <= number < 2 ^ 64 ->
  removeOldEntries d b head number = (head', c, e, b') ->
  let walk := chainKeys d (Z.to_nat number) head in
  b' = b ++ map OpDelete walk
  /\ c = Z.of_nat (length walk)
  /\ head' = chainEnd d (Z.to_nat number) head
  /\ (e = None <-> Z.of_nat (length walk) = number)
  /\ c <= number.
Proof.
  intros Hn Hr walk.
  destruct (removeOldEntries_chain d b head number head' c e b' Hn Hr)
    as [Hb [Hc [Hh He]]].
  fold walk in Hb, Hc, He.
  pose proof (chainKeys_length d (Z.to_nat number) head) as Hlen.
  fold walk in Hlen.
  repeat split; try assumption; try apply He.
  rewrite Hc. lia.
Qed.

(** ** What a committing call leaves in the store *)

(** The batch a committing call applies: the staged node writes, the
    deletions of the eviction walk (none when the size is within the
    bound), and the closing operations with the size cut to the bound. *)
Lemma evictAndFinish_batch s st height s' :
  0 <= maxReceipts s ->
  0 <= l_size st < 2 ^ 64 ->
  evictAndFinish s st height = Ret (None, s') ->
  let n := Z.to_nat (l_size st - maxReceipts s) in
  exists p,
    MarshalTxHashList (l_txHashArray st) = Ok p
    /\ length (chainKeys (db s) n (l_headHash st)) = n
    /\ s' = Commit (withBatch s
                      ((l_batch st
                        ++ map OpDelete (chainKeys (db s) n (l_headHash st)))
                       ++ closingOps (Z.min (l_size st) (maxReceipts s))
                            (chainEnd (db s) n (l_headHash st))
                            (l_tailHash st) height p (l_events st))).
Proof.
  intros Hmax Hsize Hret n. unfold evictAndFinish in Hret.
  destruct (maxReceipts s <? l_size st) eqn:Hlt.
  - apply Z.ltb_lt in Hlt.
    destruct (removeOldEntries _ _ _ _) as [[[h' c] e] b'] eqn:Hrem.
    destruct e as [e|]; [discriminate|].
    rewrite wrap64_small in Hrem by lia.
    assert (Hnum : 0 <= l_size st - maxReceipts s < 2 ^ 64) by lia.
    destruct (removeOldEntries_chain _ _ _ _ _ _ _ _ Hnum Hrem)
      as [Hb [Hc [Hh Hnone]]].
    fold n in Hb, Hc, Hh, Hnone.
    destruct Hnone as [Hnone _]. specialize (Hnone eq_refl).
    assert (Hge : (l_size st <? c) = false) by (apply Z.ltb_ge; lia).
    rewrite Hge in Hret. apply finishCommit_commits in Hret.
    destruct Hret as [p [Hp ->]]. exists p. split; [exact Hp|]. split; [lia|].
    assert (Hw : wrap64 (l_size st - c) = Z.min (l_size st) (maxReceipts s)).
    { rewrite wrap64_small by lia. lia. }
    rewrite Hw, Hb, Hh. reflexivity.
  - apply Z.ltb_ge in Hlt.
    assert (Hn : n = 0%nat) by (unfold n; lia).
    rewrite Hn. cbn [chainKeys chainEnd map length]. rewrite app_nil_r.
    apply finishCommit_commits in Hret. destruct Hret as [p [Hp ->]].
    exists p. split; [exact Hp|]. split; [reflexivity|].
    now rewrite Z.min_l by lia.
Qed.

Lemma linked_size_range d st0 receipts :
  0 <= l_size st0 < 2 ^ 64 ->
  0 <= l_size (stageTail d (linkReceipts d st0 receipts)) < 2 ^ 64.
Proof.
  assert (Hacc : accounted d st0 (stageTail d (linkReceipts d st0 receipts))).
  { eapply accounted_trans; [apply linkReceipts_accounted|].
    eapply accounted_step, stageTail_size. }
  destruct Hacc as [_ [_ [_ [_ Hrange]]]]. exact Hrange.
Qed.

Lemma CommitReceipts_batch s receipts height st0 s' :
  0 <= maxReceipts s ->
  receipts <> [] -> maxReceipts s <> 0 ->
  readChain (Rollback s) = Ret (inr st0) ->
  CommitReceipts s receipts height = Ret (None, s') ->
  let st := stageTail (db s) (linkReceipts (db s) st0 receipts) in
  let n := Z.to_nat (l_size st - maxReceipts s) in
  exists p,
    MarshalTxHashList (l_txHashArray st) = Ok p
    /\ length (chainKeys (db s) n (l_headHash st)) = n
    /\ db s'
       = fold_left applyOp
           (closingOps (Z.min (l_size st) (maxReceipts s))
              (chainEnd (db s) n (l_headHash st))
              (l_tailHash st) height p (l_events st))
           (fold_left applyOp
              (map OpDelete (chainKeys (db s) n (l_headHash st)))
              (fold_left applyOp (l_batch st) (db s))).
Proof.
  intros Hmax Hr Hm Hread Hcommit st n.
  rewrite CommitReceipts_body in Hcommit by assumption.
  unfold commitBody in Hcommit. rewrite Hread, db_Rollback in Hcommit.
  fold st in Hcommit.
  destruct (readChain_start _ _ Hread) as [Hsize _].
  apply evictAndFinish_batch in Hcommit;
    [|exact Hmax | now apply linked_size_range].
  destruct Hcommit as [p [Hp [Hlen ->]]].
  exists p. split; [exact Hp|]. split; [exact Hlen|].
  cbn [Commit withBatch db batch Rollback]. now rewrite !fold_left_app.
Qed.

Lemma closing_keeps (d : gmap bytes bytes) size (head tail : bytes) height
    (p : bytes) (events : list EventData) (k : bytes) :
  ~ In k (fixedKeys height) ->
  fold_left applyOp (closingOps size head tail height p events) d !! k = d !! k.
Proof.
  intros Hk. unfold closingOps, fixedKeys in *. cbn [fold_left applyOp].
  cbn [In] in Hk.
  assert (H1 : headKey <> k) by tauto.
  assert (H2 : tailKey <> k) by tauto.
  assert (H3 : currentDbSizeKey <> k) by tauto.
  assert (H4 : evmTxHashKey height <> k) by tauto.
  assert (H5 : bloomFilterKey height <> k) by tauto.
  now rewrite !lookup_insert_ne by assumption.
Qed.

Lemma closing_params (d : gmap bytes bytes) size (head tail : bytes) height
    (p : bytes) (events : list EventData) :
  List.NoDup (fixedKeys height) ->
  let d' := fold_left applyOp (closingOps size head tail height p events) d in
  d' !! headKey = Some head
  /\ d' !! tailKey = Some tail
  /\ d' !! currentDbSizeKey = Some (PutUint64 size).
Proof.
  intros Hnd. unfold fixedKeys in Hnd.
  inversion Hnd as [|k1 l1 N1 Hnd1]; subst.
  inversion Hnd1 as [|k2 l2 N2 Hnd2]; subst.
  inversion Hnd2 as [|k3 l3 N3 Hnd3]; subst.
  cbn [In] in N1, N2, N3.
  assert (A1 : tailKey <> headKey) by tauto.
  assert (A2 : currentDbSizeKey <> headKey) by tauto.
  assert (A3 : evmTxHashKey height <> headKey) by tauto.
  assert (A4 : bloomFilterKey height <> headKey) by tauto.
  assert (B2 : currentDbSizeKey <> tailKey) by tauto.
  assert (B3 : evmTxHashKey height <> tailKey) by tauto.
  assert (B4 : bloomFilterKey height <> tailKey) by tauto.
  assert (C3 : evmTxHashKey height <> currentDbSizeKey) by tauto.
  assert (C4 : bloomFilterKey height <> currentDbSizeKey) by tauto.
  unfold closingOps. cbn [fold_left applyOp]. repeat split.
  - rewrite !lookup_insert_ne by assumption. apply lookup_insert_eq.
  - rewrite !lookup_insert_ne by assumption. apply lookup_insert_eq.
  - rewrite !lookup_insert_ne by assumption. apply lookup_insert_eq.
Qed.

Lemma storedSize_written (d : gmap bytes bytes) size :
  0 <= size < 2 ^ 64 ->
  d !! currentDbSizeKey = Some (PutUint64 size) ->
  storedSize d = size.
Proof.
  intros Hsize Hd. unfold storedSize, Has, Get. rewrite Hd.
  unfold PutUint64.
  rewrite firstn_all2 by (rewrite length_le_encode; lia).
  rewrite le_decode_encode. change (256 ^ Z.of_nat 8) with (2 ^ 64).
  now apply Z.mod_small.
Qed.

(** X6: the bound is kept.  After a call that commits, the size stored in
    the durable store is at most the configured maximum (and not
    negative), whatever the size before the call and however many receipts
    came in. *)
Theorem committed_size_within_bound s receipts height st0 s' :
  0 <= maxReceipts s ->
  List.NoDup (fixedKeys height) ->
  receipts <> [] -> maxReceipts s <> 0 ->
  readChain (Rollback s) = Ret (inr st0) ->
  CommitReceipts s receipts height = Ret (None, s') ->
  0 <= storedSize (db s') <= maxReceipts s.
Proof.
  intros Hmax Hnd Hr Hm Hread Hcommit.
  destruct (CommitReceipts_batch _ _ _ _ _ Hmax Hr Hm Hread Hcommit)
    as [p [_ [_ Hdb]]].
  destruct (readChain_start _ _ Hread) as [Hsize _].
  pose proof (linked_size_range (db s) st0 receipts Hsize) as Hrange.
  match type of Hdb with _ = fold_left _ (closingOps ?a ?b ?c ?e ?f ?g) ?h =>
    destruct (closing_params h a b c e f g Hnd) as [_ [_ L]]
  end.
  cbn zeta in L. rewrite <- Hdb in L.
  assert (Hmin : 0 <= Z.min (l_size (stageTail (db s) (linkReceipts (db s) st0 receipts)))
                        (maxReceipts s) < 2 ^ 64) by lia.
  rewrite (storedSize_written _ _ Hmin L). lia.
Qed.

Lemma last_cons {A : Type} (x d : A) (l : list A) :
  List.last (x :: l) d = List.last l x.
Proof.
  revert x d. induction l as [|y l IH]; intros x d; [reflexivity|].
  change (List.last (x :: y :: l) d) with (List.last (y :: l) d).
  rewrite !IH. reflexivity.
Qed.

(** The tail after the loop is the hash of the last receipt that was
    linked; the head is the hash of the first one when the chain was empty,
    and is not moved otherwise. *)
Lemma linkReceipts_ends d (valid : list (EvmTxReceipt EventData)) :
  Forall (fun r => is_empty (TxHash r) = false) valid ->
  forall st,
    let linked := linkedReceipts (l_tailReceiptItem st) (l_headHash st) valid in
    let st' := linkReceipts d st (map Some valid) in
    l_tailHash st' = List.last (map TxHash linked) (l_tailHash st)
    /\ l_headHash st'
       = if is_empty (l_headHash st) then List.hd [] (map TxHash linked)
         else l_headHash st.
Proof.
  unfold linkReceipts.
  induction 1 as [|r rest Hr Hrest IH]; intros st;
    cbn [map fold_left linkedReceipts].
  - cbn [List.last List.hd]. split; [reflexivity|].
    destruct (is_empty (l_headHash st)) eqn:He; [|reflexivity].
    now apply is_empty_true in He.
  - unfold linkReceipt at 2 4. rewrite Hr.
    destruct (is_empty (l_headHash st)) eqn:Hh.
    + match goal with |- context [fold_left _ _ (setNextTail ?a ?b)] =>
        destruct (IH (setNextTail a b)) as [IH1 IH2]
      end.
      cbn [l_tailReceiptItem l_headHash l_tailHash setNextTail] in IH1, IH2.
      rewrite Hr in IH2. rewrite IH1, IH2. cbn [map List.hd].
      rewrite last_cons. split; reflexivity.
    + destruct (MarshalItem _) as [p|msg].
      * match goal with |- context [fold_left _ _ (setNextTail ?a ?b)] =>
          destruct (IH (setNextTail a b)) as [IH1 IH2]
        end.
        cbn [l_tailReceiptItem l_headHash l_tailHash setNextTail] in IH1, IH2.
        rewrite Hh in IH2. rewrite IH1, IH2. cbn [map].
        rewrite last_cons. split; reflexivity.
      * match goal with |- context [fold_left _ _ ?a] =>
          destruct (IH a) as [IH1 IH2]
        end.
        cbn [l_tailReceiptItem l_headHash l_tailHash] in IH1, IH2.
        rewrite Hh in IH2. split; assumption.
Qed.

(** X7: after a call that commits, the tail stored in the durable store is
    the hash of the last receipt of the block that was linked (the tail of
    before, when none was), and, when the call did not have to evict, the
    stored head is the head of before, or the hash of the first linked
    receipt when the chain was empty. *)
Theorem committed_head_and_tail s receipts height st0 s' :
  0 <= maxReceipts s ->
  List.NoDup (fixedKeys height) ->
  receipts <> [] -> maxReceipts s <> 0 ->
  readChain (Rollback s) = Ret (inr st0) ->
  CommitReceipts s receipts height = Ret (None, s') ->
  let linked :=
    linkedReceipts (l_tailReceiptItem st0) (l_headHash st0)
      (validReceipts receipts) in
  Get (db s') tailKey = List.last (map TxHash linked) (l_tailHash st0)
  /\ (l_size (stageTail (db s) (linkReceipts (db s) st0 receipts))
        <= maxReceipts s ->
      Get (db s') headKey
      = if is_empty (l_headHash st0) then List.hd [] (map TxHash linked)
        else l_headHash st0).
Proof.
  intros Hmax Hnd Hr Hm Hread Hcommit linked.
  destruct (CommitReceipts_batch _ _ _ _ _ Hmax Hr Hm Hread Hcommit)
    as [p [_ [_ Hdb]]].
  match type of Hdb with _ = fold_left _ (closingOps ?a ?b ?c ?e ?f ?g) ?h =>
    destruct (closing_params h a b c e f g Hnd) as [Lh [Lt _]]
  end.
  cbn zeta in Lh, Lt. rewrite <- Hdb in Lh, Lt.
  destruct (stageTail_keeps (db s) (linkReceipts (db s) st0 receipts))
    as [_ [_ [Kt Kh]]].
  destruct (linkReceipts_ends (db s) _ (validReceipts_nonempty receipts) st0)
    as [Et Eh].
  rewrite <- linkReceipts_valid in Et, Eh. fold linked in Et, Eh.
  unfold Get. rewrite Lh, Lt. split.
  - now rewrite Kt, Et.
  - intros Hle.
    replace (Z.to_nat _) with 0%nat by lia. cbn [chainEnd].
    now rewrite Kh, Eh.
Qed.

Lemma deletes_keep_none (ks : list bytes) :
  forall (d : gmap bytes bytes) (k : bytes),
    d !! k = None -> fold_left applyOp (map OpDelete ks) d !! k = None.
Proof.
  induction ks as [|x ks IH]; intros d k Hk; cbn [map fold_left applyOp];
    [exact Hk|].
  apply IH. rewrite lookup_delete. destruct (decide (x = k)); auto.
Qed.

Lemma deletes_remove (ks : list bytes) :
  forall (d : gmap bytes bytes) (k : bytes),
    In k ks -> fold_left applyOp (map OpDelete ks) d !! k = None.
Proof.
  induction ks as [|x ks IH]; intros d k Hin; [destruct Hin|].
  cbn [map fold_left applyOp].
  destruct (decide (x = k)) as [->|Hne].
  - apply deletes_keep_none, lookup_delete_eq.
  - destruct Hin as [->|Hin]; [congruence|]. now apply IH.
Qed.

(** X8: what a committing call evicts cannot be looked up any more.  Every
    key on the eviction walk (the first [size - max] keys of the stored
    chain from the head), unless it is one of the five fixed keys, is
    absent from the store the call leaves, and [GetReceipt] answers
    [ErrTxReceiptNotFound] for it, even when the same call had written a
    node under that key. *)
Theorem evicted_receipts_are_gone s receipts height st0 s' :
  0 <= maxReceipts s ->
  receipts <> [] -> maxReceipts s <> 0 ->
  readChain (Rollback s) = Ret (inr st0) ->
  CommitReceipts s receipts height = Ret (None, s') ->
  let st := stageTail (db s) (linkReceipts (db s) st0 receipts) in
  let n := Z.to_nat (l_size st - maxReceipts s) in
  length (chainKeys (db s) n (l_headHash st)) = n
  /\ forall k : bytes,
       In k (chainKeys (db s) n (l_headHash st)) ->
       ~ In k (fixedKeys height) ->
       db s' !! k = None
       /\ GetReceipt s' k = Ret (emptyReceipt, Some ErrTxReceiptNotFound).
Proof.
  intros Hmax Hr Hm Hread Hcommit st n.
  destruct (CommitReceipts_batch _ _ _ _ _ Hmax Hr Hm Hread Hcommit)
    as [p [_ [Hlen Hdb]]].
  fold st in Hlen, Hdb. fold n in Hlen, Hdb.
  split; [exact Hlen|]. intros k Hin Hk.
  assert (Hnone : db s' !! k = None).
  { rewrite Hdb, closing_keeps by assumption. now apply deletes_remove. }
  split; [exact Hnone|].
  unfold GetReceipt, Get. now rewrite Hnone.
Qed.

(** ** The nodes a call writes *)

Lemma link_chain d (valid : list (EvmTxReceipt EventData)) :
  Forall (fun r => is_empty (TxHash r) = false) valid ->
  forall st,
    is_empty (l_headHash st) = false ->
    (valid = [] -> is_empty (l_tailHash st) = false) ->
    Forall encodes (chainWrites (l_tailHash st) (l_tailReceiptItem st) valid) ->
    exists ops,
      l_batch (stageTail d (linkReceipts d st (map Some valid)))
      = l_batch st ++ ops
      /\ Forall2 writesNode ops
           (chainWrites (l_tailHash st) (l_tailReceiptItem st) valid).
Proof.
  unfold linkReceipts.
  induction 1 as [|r rest Hr Hrest IH]; intros st Hh Ht Henc;
    cbn [map fold_left chainWrites] in *.
  - unfold stageTail. rewrite (Ht eq_refl).
    inversion Henc as [|w ws [p Hp] _]; subst. cbn [snd] in Hp. rewrite Hp.
    exists [OpSet (l_tailHash st) p]. split; [reflexivity|].
    constructor; [|constructor]. exists p. split; [exact Hp | reflexivity].
  - inversion Henc as [|w ws [p Hp] Hrestenc]; subst. cbn [snd] in Hp.
    unfold linkReceipt at 2. rewrite Hr, Hh, Hp.
    match goal with |- context [fold_left _ _ (setNextTail ?a ?b)] =>
      destruct (IH (setNextTail a b)) as [ops [Hb Hops]]
    end.
    + exact Hh.
    + intros _. exact Hr.
    + exact Hrestenc.
    + cbn [setNextTail l_batch l_tailHash l_tailReceiptItem] in Hb, Hops.
      exists (OpSet (l_tailHash st) p :: ops). split.
      * rewrite Hb. unfold batchSet. now rewrite <- app_assoc.
      * constructor; [|exact Hops].
        exists p. split; [exact Hp | reflexivity].
Qed.

Lemma link_nodeWrites d st (valid : list (EvmTxReceipt EventData)) :
  Forall (fun r => is_empty (TxHash r) = false) valid ->
  Forall encodes (nodeWrites st valid) ->
  exists ops,
    l_batch (stageTail d (linkReceipts d st (map Some valid)))
    = l_batch st ++ ops
    /\ Forall2 writesNode ops (nodeWrites st valid).
Proof.
  intros Hvalid Henc. unfold nodeWrites in *.
  destruct valid as [|r rest].
  - cbn [map]. unfold linkReceipts. cbn [fold_left]. unfold stageTail.
    destruct (is_empty (l_tailHash st)) eqn:Ht.
    + exists []. rewrite app_nil_r. split; [reflexivity | constructor].
    + inversion Henc as [|w ws [p Hp] _]; subst. cbn [snd] in Hp. rewrite Hp.
      exists [OpSet (l_tailHash st) p]. split; [reflexivity|].
      constructor; [|constructor]. exists p. split; [exact Hp | reflexivity].
  - destruct (is_empty (l_headHash st)) eqn:Hh.
    + inversion Hvalid as [|r' rest' Hr Hrest]; subst.
      cbn [map]. unfold linkReceipts. cbn [fold_left].
      unfold linkReceipt at 2. rewrite Hr, Hh.
      match goal with |- context [fold_left _ _ (setNextTail ?a ?b)] =>
        destruct (link_chain d rest Hrest (setNextTail a b))
          as [ops [Hb Hops]]
      end.
      * exact Hr.
      * intros _. exact Hr.
      * exact Henc.
      * cbn [setNextTail l_batch l_tailHash l_tailReceiptItem] in Hb, Hops.
        exists ops. split; assumption.
    + apply link_chain; auto. discriminate.
Qed.

Lemma chain_links_all (valid : list (EvmTxReceipt EventData)) :
  forall (key head : bytes) item,
    is_empty head = false ->
    Forall encodes (chainWrites key item valid) ->
    linkedReceipts item head valid = valid.
Proof.
  induction valid as [|r rest IH]; intros key head item Hh Henc;
    cbn [linkedReceipts chainWrites] in *; [reflexivity|].
  inversion Henc as [|w ws [p Hp] Hrest]; subst. cbn [snd] in Hp.
  rewrite Hh, Hp. f_equal. now apply (IH (TxHash r)).
Qed.

Lemma nodeWrites_links_all st (valid : list (EvmTxReceipt EventData)) :
  Forall (fun r => is_empty (TxHash r) = false) valid ->
  Forall encodes (nodeWrites st valid) ->
  linkedReceipts (l_tailReceiptItem st) (l_headHash st) valid = valid.
Proof.
  intros Hvalid Henc. unfold nodeWrites in Henc.
  destruct valid as [|r rest]; [reflexivity|].
  inversion Hvalid as [|r' rest' Hr Hrest]; subst.
  destruct (is_empty (l_headHash st)) eqn:Hh.
  - cbn [linkedReceipts]. rewrite Hh. f_equal.
    now apply (chain_links_all rest (TxHash r)).
  - now apply (chain_links_all (r :: rest) (l_tailHash st)).
Qed.

Lemma linking_batch d st receipts :
  Forall encodes (nodeWrites st (validReceipts receipts)) ->
  exists ops,
    l_batch (stageTail d (linkReceipts d st receipts)) = l_batch st ++ ops
    /\ Forall2 writesNode ops (nodeWrites st (validReceipts receipts)).
Proof.
  intros Henc. rewrite linkReceipts_valid.
  apply link_nodeWrites; [apply validReceipts_nonempty | exact Henc].
Qed.


(** ** Looking up what was committed *)

Lemma chainWrites_keys (valid : list (EvmTxReceipt EventData)) :
  forall (key : bytes) item,
    map fst (chainWrites key item valid) = key :: map TxHash valid.
Proof.
  induction valid as [|r rest IH]; intros key item; cbn [chainWrites map fst];
    [reflexivity|].
  now rewrite IH.
Qed.

Lemma writes_keep (ops : list batchOp) :
  forall (ws : list (bytes * EvmTxReceiptListItem EventData)) d (k : bytes),
    Forall2 writesNode ops ws ->
    ~ In k (map fst ws) ->
    fold_left applyOp ops d !! k = d !! k.
Proof.
  induction ops as [|op ops IH]; intros ws d k Hops Hk;
    inversion Hops as [|op' w ops' ws' [p [_ Hop]] Hrest]; subst;
    cbn [fold_left]; [reflexivity|].
  cbn [map In] in Hk.
  rewrite (IH ws') by tauto.
  cbn [applyOp]. apply lookup_insert_ne. tauto.
Qed.

Lemma chain_first (valid : list (EvmTxReceipt EventData)) (key : bytes) item
    (ops : list batchOp) d :
  Forall2 writesNode ops (chainWrites key item valid) ->
  ~ In key (map TxHash valid) ->
  exists w p,
    In w (chainWrites key item valid)
    /\ fst w = key /\ Receipt (snd w) = Receipt item
    /\ MarshalItem (snd w) = Ok p
    /\ fold_left applyOp ops d !! key = Some p.
Proof.
  intros Hops Hk. destruct valid as [|r rest]; cbn [chainWrites] in *.
  - inversion Hops as [|op w ops' ws' [p [Hp Hop]] Hrest]; subst.
    inversion Hrest; subst. cbn [fst snd] in *.
    exists (key, item), p. cbn [fold_left applyOp fst snd].
    repeat split; auto. + now left. + apply lookup_insert_eq.
  - inversion Hops as [|op w ops' ws' [p [Hp Hop]] Hrest]; subst.
    cbn [fst snd] in *.
    eexists (key, _), p. cbn [fold_left fst snd].
    split; [now left|]. split; [reflexivity|]. split; [reflexivity|].
    split; [exact Hp|].
    rewrite (writes_keep _ _ _ _ Hrest).
    + cbn [applyOp]. apply lookup_insert_eq.
    + rewrite chainWrites_keys. exact Hk.
Qed.

Lemma chain_lookup (valid : list (EvmTxReceipt EventData)) :
  forall (key : bytes) item (ops : list batchOp) d,
    Forall2 writesNode ops (chainWrites key item valid) ->
    List.NoDup (map TxHash valid) ->
    forall r, In r valid ->
      exists w p,
        In w (chainWrites key item valid)
        /\ fst w = TxHash r /\ Receipt (snd w) = Some r
        /\ MarshalItem (snd w) = Ok p
        /\ fold_left applyOp ops d !! TxHash r = Some p.
Proof.
  induction valid as [|r0 rest IH]; intros key item ops d Hops Hnd r Hin;
    [destruct Hin|].
  cbn [chainWrites] in *. cbn [map] in Hnd.
  inversion Hnd as [|h hs Hnotin Hnd']; subst.
  inversion Hops as [|op w ops' ws' Hop Hrest]; subst.
  cbn [fold_left].
  destruct Hin as [<-|Hin].
  - destruct (chain_first rest (TxHash r0)
                {| Receipt := Some r0; NextTxHash := [] |} ops'
                (applyOp d op) Hrest Hnotin)
      as [w [p [Hw [Hk [Hrc [Hp Hl]]]]]].
    exists w, p. repeat split; auto. now right.
  - destruct (IH (TxHash r0) {| Receipt := Some r0; NextTxHash := [] |} ops'
                (applyOp d op) Hrest Hnd' r Hin)
      as [w [p [Hw [Hk [Hrc [Hp Hl]]]]]].
    exists w, p. repeat split; auto. now right.
Qed.

Lemma nodeWrites_lookup st (valid : list (EvmTxReceipt EventData))
    (ops : list batchOp) d :
  Forall2 writesNode ops (nodeWrites st valid) ->
  List.NoDup (map TxHash valid) ->
  forall r, In r valid ->
    exists w p,
      In w (nodeWrites st valid)
      /\ fst w = TxHash r /\ Receipt (snd w) = Some r
      /\ MarshalItem (snd w) = Ok p
      /\ fold_left applyOp ops d !! TxHash r = Some p.
Proof.
  intros Hops Hnd r Hin. unfold nodeWrites in *.
  destruct valid as [|r0 rest]; [destruct Hin|].
  destruct (is_empty (l_headHash st)).
  - cbn [map] in Hnd. inversion Hnd as [|h hs Hnotin Hnd']; subst.
    destruct Hin as [<-|Hin].
    + now apply chain_first.
    + now apply chain_lookup.
  - now apply chain_lookup.
Qed.

(** X10: what a call commits can be looked up.  When the call commits
    without having to evict, the hashes of the block's receipts are
    pairwise distinct, and every node to be written encodes to bytes that
    are not empty and decode to an item with the same receipt, then
    [GetReceipt] on the store the call leaves returns, for the hash of
    every non-skipped receipt of the block that is not one of the five
    fixed keys, that very receipt. *)
Theorem committed_receipts_are_found s receipts height st0 s' :
  0 <= maxReceipts s ->
  receipts <> [] -> maxReceipts s <> 0 ->
  readChain (Rollback s) = Ret (inr st0) ->
  CommitReceipts s receipts height = Ret (None, s') ->
  l_size (stageTail (db s) (linkReceipts (db s) st0 receipts))
    <= maxReceipts s ->
  List.NoDup (map TxHash (validReceipts receipts)) ->
  Forall readsBack (nodeWrites st0 (validReceipts receipts)) ->
  forall r,
    In r (validReceipts receipts) ->
    ~ In (TxHash r) (fixedKeys height) ->
    GetReceipt s' (TxHash r) = Ret (r, None).
Proof.
  intros Hmax Hr Hm Hread Hcommit Hle Hnd Hback r Hin Hk.
  destruct (CommitReceipts_batch _ _ _ _ _ Hmax Hr Hm Hread Hcommit)
    as [p [_ [_ Hdb]]].
  replace (Z.to_nat _) with 0%nat in Hdb by lia.
  cbn [chainKeys map fold_left] in Hdb.
  assert (Henc : Forall encodes (nodeWrites st0 (validReceipts receipts))).
  { eapply List.Forall_impl; [|exact Hback].
    intros w [q [it [Hq _]]]. now exists q. }
  destruct (linking_batch (db s) st0 receipts Henc) as [ops [Hb Hops]].
  destruct (readChain_start _ _ Hread) as [_ [_ [_ Hb0]]].
  cbn [Rollback batch] in Hb0. rewrite Hb0 in Hb. cbn [app] in Hb.
  rewrite Hb in Hdb.
  destruct (nodeWrites_lookup st0 _ ops (db s) Hops Hnd r Hin)
    as [w [q [Hw [Hkey [Hrc [Hq Hl]]]]]].
  rewrite List.Forall_forall in Hback. destruct (Hback w Hw)
    as [q' [it [Hq' [Hne [Hit Hrc']]]]].
  assert (q' = q) by congruence. subst q'.
  assert (Hfinal : db s' !! TxHash r = Some q).
  { rewrite Hdb, closing_keeps by assumption. exact Hl. }
  unfold GetReceipt, Get. rewrite Hfinal.
  apply is_empty_false in Hne. rewrite Hne, Hit, Hrc', Hrc. reflexivity.
Qed.

(** ** A block of skipped receipts *)

(** X11: the no-op of the empty list does not extend to a list of skipped
    receipts.  On an empty chain, a non-empty block in which every receipt
    is nil or has an empty hash is committed all the same: the call writes
    the parameters of the empty chain (size 0, empty head and tail), an
    empty success-hash list and the filter of no events for the height,
    and no node. *)
Theorem skipped_block_still_commits s receipts height (p : bytes) :
  validReceipts receipts = [] ->
  receipts <> [] -> maxReceipts s <> 0 -> 0 <= maxReceipts s ->
  getDBParams (db s) = Ret (0, [], [], None) ->
  MarshalTxHashList [] = Ok p ->
  CommitReceipts s receipts height
  = Ret (None, Commit (withBatch s (closingOps 0 [] [] height p []))).
Proof.
  intros Hv Hr Hm Hmax Hp Hlist.
  rewrite CommitReceipts_body by assumption.
  unfold commitBody, readChain. rewrite db_Rollback, Hp. cbn [is_empty negb].
  rewrite linkReceipts_valid, Hv. cbn [map]. unfold linkReceipts.
  cbn [fold_left]. unfold stageTail. cbn [l_tailHash is_empty].
  unfold evictAndFinish. cbn [l_size l_headHash l_batch].
  change (maxReceipts (Rollback s)) with (maxReceipts s).
  assert (Hlt : (maxReceipts s <? 0) = false) by (apply Z.ltb_ge; lia).
  rewrite Hlt. unfold finishCommit, setTxHashList.
  cbn [l_txHashArray l_events l_tailHash]. rewrite Hlist.
  unfold setBloomFilter, setDBParams, batchSet, closingOps.
  cbn [Rollback batch app]. reflexivity.
Qed.

(** ** The chain is kept, first in, first out *)

Lemma nextOf_same d d' (k : bytes) :
  d' !! k = d !! k -> nextOf d' k = nextOf d k.
Proof. intros H. unfold nextOf, Get. now rewrite H. Qed.

Lemma nextOf_stored d (k nxt : bytes) :
  nextOf d k = Some nxt ->
  d !! k <> None
  /\ exists it, UnmarshalItem (Get d k) = Ok it /\ NextTxHash it = nxt
                /\ Get d k <> [].
Proof.
  unfold nextOf. destruct (is_empty (Get d k)) eqn:He; [discriminate|].
  apply is_empty_false in He.
  destruct (UnmarshalItem (Get d k)) as [it|msg]; [|discriminate].
  intros [= <-]. split.
  - unfold Get in He. destruct (d !! k); congruence.
  - exists it. auto.
Qed.

Lemma linkedKeys_same d d' (keys : list bytes) (nxt : bytes) :
  (forall k, In k keys -> d' !! k = d !! k) ->
  linkedKeys d keys nxt -> linkedKeys d' keys nxt.
Proof.
  induction keys as [|k rest IH]; intros Hsame Hl; [exact I|].
  cbn [linkedKeys] in *. destruct Hl as [Hk [Hn Hrest]].
  split; [exact Hk|]. split.
  - rewrite (nextOf_same d d') by (apply Hsame; now left). exact Hn.
  - apply IH; [|exact Hrest]. intros k' Hin. apply Hsame. now right.
Qed.

Lemma hd_app_default (a b : list bytes) (nxt : bytes) :
  List.hd nxt (a ++ b) = List.hd (List.hd nxt b) a.
Proof. destruct a; reflexivity. Qed.

Lemma linkedKeys_app d (a b : list bytes) (nxt : bytes) :
  linkedKeys d (a ++ b) nxt
  <-> linkedKeys d a (List.hd nxt b) /\ linkedKeys d b nxt.
Proof.
  induction a as [|k rest IH]; cbn [app linkedKeys].
  - tauto.
  - rewrite IH, hd_app_default. tauto.
Qed.

Lemma linkedKeys_skipn d (e : nat) :
  forall (keys : list bytes) (nxt : bytes),
    linkedKeys d keys nxt -> linkedKeys d (skipn e keys) nxt.
Proof.
  induction e as [|e IH]; intros keys nxt Hl; [exact Hl|].
  destruct keys as [|k rest]; [exact I|].
  cbn [skipn]. apply IH. cbn [linkedKeys] in Hl. tauto.
Qed.

Lemma linkedKeys_in d (keys : list bytes) (nxt : bytes) :
  linkedKeys d keys nxt ->
  forall k, In k keys -> k <> [] /\ d !! k <> None.
Proof.
  induction keys as [|k0 rest IH]; intros Hl k Hin; [destruct Hin|].
  cbn [linkedKeys] in Hl. destruct Hl as [Hk [Hn Hrest]].
  destruct Hin as [<-|Hin].
  - split; [exact Hk|]. now apply nextOf_stored in Hn.
  - now apply IH.
Qed.

Lemma linkedKeys_last d (keys : list bytes) (nxt : bytes) :
  linkedKeys d keys nxt -> keys <> [] ->
  List.last keys [] <> [] /\ nextOf d (List.last keys []) = Some nxt.
Proof.
  induction keys as [|k rest IH]; intros Hl Hne; [congruence|].
  cbn [linkedKeys] in Hl. destruct Hl as [Hk [Hn Hrest]].
  destruct rest as [|k' rest'].
  - cbn [List.last List.hd] in *. auto.
  - change (List.last (k :: k' :: rest') []) with (List.last (k' :: rest') []).
    apply IH; [exact Hrest | discriminate].
Qed.

(** On a stored chain the eviction walk takes the first keys, and stops at
    the key that follows them. *)
Lemma chain_walk d (e : nat) :
  forall (keys : list bytes) (nxt : bytes),
    linkedKeys d keys nxt -> (e <= length keys)%nat ->
    chainKeys d e (List.hd nxt keys) = firstn e keys
    /\ chainEnd d e (List.hd nxt keys) = List.hd nxt (skipn e keys).
Proof.
  induction e as [|e IH]; intros keys nxt Hl He; [split; reflexivity|].
  destruct keys as [|k rest]; [cbn [length] in He; lia|].
  cbn [linkedKeys] in Hl. destruct Hl as [Hk [Hn Hrest]].
  cbn [List.hd chainKeys chainEnd firstn skipn].
  apply is_empty_false in Hk. rewrite Hk.
  apply nextOf_stored in Hn. destruct Hn as [_ [it [Hit [Hnext _]]]].
  rewrite Hit, Hnext.
  cbn [length] in He. destruct (IH rest nxt Hrest) as [IH1 IH2]; [lia|].
  now rewrite IH1, IH2.
Qed.

Lemma written_next d (k p : bytes) (w : bytes * EvmTxReceiptListItem EventData) :
  readsBackNext w -> MarshalItem (snd w) = Ok p ->
  d !! k = Some p ->
  nextOf d k = Some (NextTxHash (snd w)).
Proof.
  intros [q [it [Hq [Hne [Hit Hnext]]]]] Hp Hd.
  assert (q = p) by congruence. subst q.
  unfold nextOf, Get. rewrite Hd.
  apply is_empty_false in Hne. now rewrite Hne, Hit, Hnext.
Qed.

(** The writes of a chain, once applied, are a stored chain. *)
Lemma writes_linked (valid : list (EvmTxReceipt EventData)) :
  forall (key : bytes) item (ops : list batchOp) d,
    Forall2 writesNode ops (chainWrites key item valid) ->
    Forall readsBackNext (chainWrites key item valid) ->
    List.NoDup (key :: map TxHash valid) ->
    key <> [] ->
    Forall (fun r => is_empty (TxHash r) = false) valid ->
    NextTxHash item = [] ->
    linkedKeys (fold_left applyOp ops d) (key :: map TxHash valid) [].
Proof.
  induction valid as [|r rest IH];
    intros key item ops d Hops Hback Hnd Hkey Hvalid Hnext;
    cbn [chainWrites map] in *.
  - inversion Hops as [|op w ops' ws' [p [Hp Hop]] Hrest]; subst.
    inversion Hrest; subst. inversion Hback as [|w ws Hw _]; subst.
    cbn [fold_left applyOp linkedKeys List.hd fst snd] in *.
    split; [exact Hkey|]. split; [|exact I].
    rewrite <- Hnext.
    apply (written_next _ key p (key, item)); auto. apply lookup_insert_eq.
  - inversion Hops as [|op w ops' ws' [p [Hp Hop]] Hrest]; subst.
    inversion Hback as [|w ws Hw Hbackrest]; subst.
    inversion Hnd as [|h hs Hnotin Hnd']; subst.
    inversion Hvalid as [|r' rest' Hr Hvalidrest]; subst.
    cbn [fold_left linkedKeys List.hd fst snd] in *.
    split; [exact Hkey|]. split.
    + apply (written_next _ key p
               (key, {| Receipt := Receipt item; NextTxHash := TxHash r |}));
        auto.
      rewrite (writes_keep _ _ _ _ Hrest).
      * cbn [applyOp]. apply lookup_insert_eq.
      * rewrite chainWrites_keys. exact Hnotin.
    + apply (IH (TxHash r) {| Receipt := Some r; NextTxHash := [] |});
        auto.
      now apply is_empty_false.
Qed.

Lemma freshSets_writes (ops : list batchOp) :
  forall (ws : list (bytes * EvmTxReceiptListItem EventData)) d,
    Forall2 writesNode ops ws ->
    freshSets d ops
    = Z.of_nat (length (List.filter (fun k => negb (Has d k)) (map fst ws))).
Proof.
  induction ops as [|op ops IH]; intros ws d Hops;
    inversion Hops as [|op' w ops' ws' [p [_ Hop]] Hrest]; subst;
    [reflexivity|].
  change (OpSet (fst w) p :: ops) with ([OpSet (fst w) p] ++ ops).
  rewrite freshSets_app, freshSets_set, (IH ws' d Hrest).
  cbn [map List.filter]. destruct (negb (Has d (fst w))); cbn [length]; lia.
Qed.

Lemma filter_fresh d (hs : list bytes) :
  (forall h, In h hs -> d !! h = None) ->
  List.filter (fun k => negb (Has d k)) hs = hs.
Proof.
  induction hs as [|h rest IH]; intros Hf; [reflexivity|].
  cbn [List.filter]. unfold Has at 1. rewrite (Hf h) by now left.
  cbn [negb]. rewrite IH; [reflexivity|]. intros k Hk. apply Hf. now right.
Qed.

Lemma getDBParams_written d size (head tail : bytes) :
  d !! currentDbSizeKey = Some (PutUint64 size) ->
  d !! headKey = Some head -> d !! tailKey = Some tail ->
  0 <= size < 2 ^ 64 ->
  (0 < size -> head <> [] /\ tail <> []) ->
  (size = 0 -> head = [] /\ tail = []) ->
  getDBParams d = Ret (size, head, tail, None).
Proof.
  intros Ls Lh Lt Hsize Hpos Hzero.
  unfold getDBParams, Has, Get. rewrite Ls, Lh, Lt. cbn [negb].
  rewrite Uint64_PutUint64, wrap64_small by lia.
  destruct (size =? 0) eqn:Hz.
  - apply Z.eqb_eq in Hz. destruct (Hzero Hz) as [-> ->]. now subst.
  - apply Z.eqb_neq in Hz. destruct Hpos as [Hh Ht]; [lia|].
    apply is_empty_false in Hh, Ht. now rewrite Hh, Ht.
Qed.

Lemma readChain_of_chain s (keys : list bytes) st0 :
  chainOf (db s) keys ->
  readChain s = Ret (inr st0) ->
  l_size st0 = Z.of_nat (length keys)
  /\ l_headHash st0 = List.hd [] keys
  /\ l_tailHash st0 = List.last keys []
  /\ NextTxHash (l_tailReceiptItem st0) = []
  /\ l_batch st0 = batch s.
Proof.
  intros [Hp [Hl _]] Hread. unfold readChain in Hread. rewrite Hp in Hread.
  destruct (negb (is_empty (List.hd [] keys))) eqn:Hh.
  - destruct (is_empty (Get (db s) (List.last keys []))); [discriminate|].
    destruct (UnmarshalItem (Get (db s) (List.last keys []))) as [it|msg] eqn:Hit;
      [|discriminate].
    injection Hread as <-. cbn [l_size l_headHash l_tailHash l_tailReceiptItem l_batch].
    repeat split.
    assert (Hne : keys <> []) by (intros ->; discriminate).
    destruct (linkedKeys_last _ _ _ Hl Hne) as [_ Hn].
    apply nextOf_stored in Hn. destruct Hn as [_ [it' [Hit' [Hnext _]]]].
    congruence.
  - injection Hread as <-. cbn [l_size l_headHash l_tailHash l_tailReceiptItem l_batch].
    repeat split.
Qed.

Lemma last_app_default (a b : list bytes) :
  forall d : bytes, List.last (a ++ b) d = List.last b (List.last a d).
Proof.
  induction a as [|x a IH]; intros d; [reflexivity|].
  cbn [app]. now rewrite !last_cons, IH.
Qed.

Lemma last_skipn (e : nat) :
  forall (l : list bytes) (d : bytes),
    (e < length l)%nat -> List.last (skipn e l) d = List.last l d.
Proof.
  induction e as [|e IH]; intros l d He; [reflexivity|].
  destruct l as [|x l]; [cbn [length] in He; lia|].
  cbn [skipn]. cbn [length] in He.
  destruct l as [|y l]; [cbn [length] in He; lia|].
  change (List.last (x :: y :: l) d) with (List.last (y :: l) d).
  apply IH. cbn [length] in *. lia.
Qed.

Lemma NoDup_skipn (e : nat) :
  forall l : list bytes, List.NoDup l -> List.NoDup (skipn e l).
Proof.
  induction e as [|e IH]; intros l Hnd; [exact Hnd|].
  destruct l as [|x l]; [exact Hnd|].
  cbn [skipn]. apply IH. now inversion Hnd.
Qed.

Lemma NoDup_split (a b : list bytes) (x : bytes) :
  List.NoDup (a ++ b) -> In x a -> In x b -> False.
Proof.
  induction a as [|y a IH]; intros Hnd Ha Hb; [destruct Ha|].
  cbn [app] in Hnd. inversion Hnd as [|z l Hnotin Hnd']; subst.
  destruct Ha as [->|Ha].
  - apply Hnotin, in_or_app. now right.
  - now apply IH.
Qed.

Lemma deletes_keep (ks : list bytes) :
  forall (d : gmap bytes bytes) (k : bytes),
    ~ In k ks -> fold_left applyOp (map OpDelete ks) d !! k = d !! k.
Proof.
  induction ks as [|x ks IH]; intros d k Hk; cbn [map fold_left applyOp];
    [reflexivity|].
  cbn [In] in Hk. rewrite IH by tauto.
  apply lookup_delete_ne. tauto.
Qed.

(** The keys of the node writes of a block on a stored chain: the tail of
    the chain, when there is one, then the hashes of the block.  Applied to
    the store they are a stored chain themselves, and the hashes of the
    block are the writes the size counts. *)
Lemma block_writes d st0 (valid : list (EvmTxReceipt EventData))
    (ks : list bytes) (ops : list batchOp) :
  l_headHash st0 = List.hd [] ks ->
  l_tailHash st0 = List.last ks [] ->
  NextTxHash (l_tailReceiptItem st0) = [] ->
  linkedKeys d ks [] ->
  Forall (fun r => is_empty (TxHash r) = false) valid ->
  Forall2 writesNode ops (nodeWrites st0 valid) ->
  Forall readsBackNext (nodeWrites st0 valid) ->
  List.NoDup (map TxHash valid) ->
  (forall h, In h (map TxHash valid) -> d !! h = None) ->
  let tk := match ks with [] => [] | _ :: _ => [List.last ks []] end in
  map fst (nodeWrites st0 valid) = tk ++ map TxHash valid
  /\ linkedKeys (fold_left applyOp ops d) (tk ++ map TxHash valid) []
  /\ freshSets d ops = Z.of_nat (length (map TxHash valid)).
Proof.
  intros Hh Ht Hn Hl Hvalid Hops Hback Hnd Hfresh tk.
  destruct ks as [|k1 ks'].
  - cbn [List.hd List.last] in Hh, Ht. subst tk. cbn [app].
    unfold nodeWrites in *. rewrite Hh, Ht in *. cbn [is_empty] in *.
    destruct valid as [|r rest].
    + inversion Hops; subst. repeat split.
    + inversion Hvalid as [|r' rest' Hr Hrest]; subst.
      rewrite chainWrites_keys. split; [reflexivity|]. split.
      * apply (writes_linked rest (TxHash r)
                 {| Receipt := Some r; NextTxHash := [] |}); auto.
        now apply is_empty_false.
      * rewrite (freshSets_writes _ _ _ Hops), chainWrites_keys.
        now rewrite filter_fresh.
  - assert (Hne : k1 :: ks' <> []) by discriminate.
    destruct (linkedKeys_last _ _ _ Hl Hne) as [Hlastne Hlastnext].
    set (kn := List.last (k1 :: ks') []) in *.
    assert (Hk1 : is_empty (l_headHash st0) = false).
    { rewrite Hh. cbn [List.hd]. apply is_empty_false.
      cbn [linkedKeys] in Hl. tauto. }
    assert (Hws : nodeWrites st0 valid
                  = chainWrites kn (l_tailReceiptItem st0) valid).
    { unfold nodeWrites. rewrite Hk1, Ht.
      destruct valid; [|reflexivity].
      apply is_empty_false in Hlastne. now rewrite Hlastne. }
    rewrite Hws in *. subst tk. cbn [app].
    apply nextOf_stored in Hlastnext. destruct Hlastnext as [Hin _].
    assert (Hnotin : ~ In kn (map TxHash valid)).
    { intros H. apply Hin. now apply Hfresh. }
    rewrite chainWrites_keys. split; [reflexivity|]. split.
    + apply (writes_linked valid kn (l_tailReceiptItem st0)); auto.
      now constructor.
    + rewrite (freshSets_writes _ _ _ Hops), chainWrites_keys.
      cbn [List.filter]. unfold Has at 1.
      destruct (d !! kn); [|congruence]. cbn [negb].
      now rewrite filter_fresh.
Qed.

Lemma in_skipn (e : nat) (l : list bytes) (x : bytes) :
  In x (skipn e l) -> In x l.
Proof.
  intros H. rewrite <- (List.firstn_skipn e l). apply in_or_app. now right.
Qed.

Lemma in_firstn (e : nat) (l : list bytes) (x : bytes) :
  In x (firstn e l) -> In x l.
Proof.
  intros H. rewrite <- (List.firstn_skipn e l). apply in_or_app. now left.
Qed.

Lemma getDBParams_positive d size (head tail : bytes) :
  getDBParams d = Ret (size, head, tail, None) -> 0 < size ->
  storedSize d = size /\ Get d headKey = head /\ Get d tailKey = tail.
Proof.
  intros H Hpos. unfold getDBParams in H. unfold storedSize.
  destruct (Has d currentDbSizeKey); cbn [negb] in H;
    [|injection H as <- _ _; lia].
  unfold Uint64 in H.
  destruct (length (Get d currentDbSizeKey) <? 8)%nat; [discriminate|].
  destruct (le_decode (firstn 8 (Get d currentDbSizeKey)) =? 0);
    [injection H as <- _ _; lia|].
  destruct (is_empty (Get d headKey)); [injection H as <- _ _; lia|].
  destruct (is_empty (Get d tailKey)); [injection H as <- _ _; lia|].
  injection H as <- <- <-. auto.
Qed.

Lemma linkedKeys_chainFrom d (keys : list bytes) :
  linkedKeys d keys [] -> keys <> [] ->
  chainFrom d (length keys) (List.hd [] keys) (List.last keys []) = true.
Proof.
  induction keys as [|k rest IH]; intros Hl Hne; [congruence|].
  cbn [linkedKeys] in Hl. destruct Hl as [Hk [Hn Hrest]].
  apply nextOf_stored in Hn. destruct Hn as [_ [it [Hit [Hnext Hget]]]].
  apply is_empty_false in Hget.
  cbn [length List.hd chainFrom]. rewrite Hget, Hit, Hnext.
  destruct rest as [|k' rest'].
  - cbn [length List.hd List.last is_empty]. rewrite bool_decide_eq_true_2; auto.
  - change (List.last (k :: k' :: rest') []) with (List.last (k' :: rest') []).
    cbn [length]. apply (IH Hrest). discriminate.
Qed.

(** A stored chain with at least one key satisfies the chain invariant. *)
Lemma chainOf_invariant d (keys : list bytes) :
  chainOf d keys -> keys <> [] -> chainInvariant d = true.
Proof.
  intros [Hp [Hl _]] Hne.
  assert (Hpos : 0 < Z.of_nat (length keys)).
  { destruct keys; [congruence | cbn [length]; lia]. }
  destruct (getDBParams_positive _ _ _ _ Hp Hpos) as [Hs [Hh Ht]].
  unfold chainInvariant. rewrite Hs, Hh, Ht.
  assert (Hz : (Z.of_nat (length keys) =? 0) = false) by (apply Z.eqb_neq; lia).
  assert (Hlt : (0 <? Z.of_nat (length keys)) = true) by (apply Z.ltb_lt; lia).
  rewrite Hz, Hlt, Nat2Z.id, (linkedKeys_chainFrom _ _ Hl Hne).
  destruct (linkedKeys_last _ _ _ Hl Hne) as [Hlast Hlastn].
  assert (Hfirst : List.hd [] keys <> [] /\ nextOf d (List.hd [] keys) <> None).
  { destruct keys as [|k rest]; [congruence|]. cbn [List.hd linkedKeys] in *.
    destruct Hl as [Hk [Hn _]]. split; congruence. }
  destruct Hfirst as [Hfirst Hfirstn].
  assert (Hg1 : is_empty (Get d (List.hd [] keys)) = false).
  { unfold nextOf in Hfirstn. destruct (is_empty _); congruence. }
  assert (Hg2 : is_empty (Get d (List.last keys [])) = false).
  { unfold nextOf in Hlastn. destruct (is_empty _); congruence. }
  apply is_empty_false in Hfirst. rewrite Hfirst, Hg1, Hg2. reflexivity.
Qed.

Lemma block_chain s receipts height st0 s' (ks : list bytes) :
  let hs := map TxHash (validReceipts receipts) in
  let e := Z.to_nat (Z.of_nat (length (ks ++ hs)) - maxReceipts s) in
  0 <= maxReceipts s ->
  List.NoDup (fixedKeys height) ->
  receipts <> [] -> maxReceipts s <> 0 ->
  readChain (Rollback s) = Ret (inr st0) ->
  CommitReceipts s receipts height = Ret (None, s') ->
  chainOf (db s) ks ->
  List.NoDup hs ->
  (forall h, In h hs -> db s !! h = None) ->
  (forall k, In k (ks ++ hs) -> ~ In k (fixedKeys height)) ->
  Forall readsBackNext (nodeWrites st0 (validReceipts receipts)) ->
  Z.of_nat (length (ks ++ hs)) < 2 ^ 64 ->
  (e = 0%nat \/ (e < length ks)%nat) ->
  chainOf (db s') (skipn e (ks ++ hs)).
Proof.
  intros hs e Hmax Hfix Hr Hm Hread Hcommit Hchain Hndhs Hfresh Hnotfixed
    Hback Hnowrap He.
  pose proof (validReceipts_nonempty receipts) as Hvalid.
  destruct (readChain_of_chain (Rollback s) ks st0 Hchain Hread)
    as [Hs0 [Hh0 [Ht0 [Hn0 Hb0]]]].
  destruct Hchain as [Hp [Hl Hndks]].
  assert (Henc : Forall encodes (nodeWrites st0 (validReceipts receipts))).
  { eapply List.Forall_impl; [|exact Hback].
    intros w [q [it [Hq _]]]. now exists q. }
  destruct (linking_batch (db s) st0 receipts Henc) as [ops [Hb Hops]].
  cbn [Rollback batch] in Hb0. rewrite Hb0 in Hb. cbn [app] in Hb.
  pose proof (block_writes (db s) st0 _ ks ops Hh0 Ht0 Hn0 Hl Hvalid Hops
                Hback Hndhs Hfresh) as Hbw.
  cbn zeta in Hbw. fold hs in Hbw.
  set (tk := match ks with [] => [] | _ :: _ => [List.last ks []] end) in *.
  destruct Hbw as [Hkeys [Hlinked1 Hcount]].
  set (st := stageTail (db s) (linkReceipts (db s) st0 receipts)) in *.
  assert (Hlenapp : Z.of_nat (length (ks ++ hs))
                    = Z.of_nat (length ks) + Z.of_nat (length hs)).
  { rewrite List.length_app. lia. }
  assert (Hsize : l_size st = Z.of_nat (length (ks ++ hs))).
  { assert (Hacc : accounted (db s) st0 st).
    { eapply accounted_trans; [apply linkReceipts_accounted|].
      eapply accounted_step, stageTail_size. }
    destruct Hacc as [ops1 [Hb1 [_ [Hw Hrange]]]].
    rewrite Hb0 in Hb1. cbn [app] in Hb1.
    replace ops1 with ops in Hw by congruence.
    rewrite Hcount, Hs0 in Hw.
    rewrite <- (wrap64_small (l_size st)) by (apply Hrange; lia).
    rewrite Hw, Hlenapp. apply wrap64_small. lia. }
  pose proof (CommitReceipts_batch _ _ _ _ _ Hmax Hr Hm Hread Hcommit) as Hcb.
  cbn zeta in Hcb. fold st in Hcb. rewrite Hsize in Hcb. fold e in Hcb.
  destruct Hcb as [p [_ [_ Hdb]]].
  rewrite Hb in Hdb.
  destruct (stageTail_keeps (db s) (linkReceipts (db s) st0 receipts))
    as [_ [_ [Kt Kh]]].
  fold st in Kt, Kh.
  destruct (linkReceipts_ends (db s) _ Hvalid st0) as [Et Eh].
  rewrite <- linkReceipts_valid in Et, Eh.
  rewrite (nodeWrites_links_all st0 _ Hvalid Henc) in Et, Eh.
  fold hs in Et, Eh.
  assert (Htail : l_tailHash st = List.last (ks ++ hs) []).
  { rewrite Kt, Et, Ht0. symmetry. apply last_app_default. }
  assert (Hhead : l_headHash st = List.hd [] (ks ++ hs)).
  { rewrite Kh, Eh, Hh0. destruct ks as [|k1 ks']; [reflexivity|].
    cbn [List.hd app]. cbn [linkedKeys] in Hl. destruct Hl as [Hk1 _].
    apply is_empty_false in Hk1. now rewrite Hk1. }
  assert (Hskip : skipn e (ks ++ hs) = skipn e ks ++ hs).
  { rewrite List.skipn_app.
    replace (e - length ks)%nat with 0%nat by lia. reflexivity. }
  assert (Hwalk : chainKeys (db s) e (l_headHash st) = firstn e ks
                  /\ chainEnd (db s) e (l_headHash st)
                     = List.hd [] (skipn e (ks ++ hs))).
  { destruct He as [He0 | Helt].
    - rewrite He0, Hhead. split; reflexivity.
    - rewrite Hhead, Hskip.
      destruct (chain_walk (db s) e ks [] Hl) as [W1 W2]; [lia|].
      assert (Hks : ks <> []) by (intros ->; cbn [length] in Helt; lia).
      assert (Hsk : skipn e ks <> []).
      { intros H0. apply (f_equal (@length bytes)) in H0.
        rewrite List.length_skipn in H0. cbn [length] in H0. lia. }
      destruct ks as [|k1 ks']; [congruence|]. cbn [app List.hd] in *.
      rewrite W1, W2. split; [reflexivity|].
      destruct (skipn e (k1 :: ks')); [congruence | reflexivity]. }
  destruct Hwalk as [Hdel Hend]. rewrite Hdel, Hend, Htail, Hskip in Hdb.
  set (C := skipn e ks ++ hs) in *.
  set (d1 := fold_left applyOp ops (db s)) in *.
  rewrite Hskip.
  assert (Hstored : forall k, In k ks -> k <> [] /\ db s !! k <> None).
  { apply (linkedKeys_in _ _ _ Hl). }
  assert (Hdisj : forall k, In k ks -> In k hs -> False).
  { intros k Hk Hh. apply (Hstored k Hk). now apply Hfresh. }
  assert (HinC : forall k, In k C -> In k (ks ++ hs)).
  { intros k Hk. apply in_app_or in Hk. apply in_or_app.
    destruct Hk as [Hk|Hk]; [left; now apply in_skipn in Hk | now right]. }
  assert (Hkeep : forall k, In k C -> db s' !! k = d1 !! k).
  { intros k Hk. rewrite Hdb, closing_keeps by (apply Hnotfixed, HinC, Hk).
    apply deletes_keep. intros Hdelk.
    apply in_app_or in Hk. destruct Hk as [Hk|Hk].
    - apply (NoDup_split (firstn e ks) (skipn e ks) k); auto.
      now rewrite List.firstn_skipn.
    - apply (Hdisj k); auto. now apply in_firstn in Hdelk. }
  assert (Hdec : ks = removelast ks ++ tk).
  { subst tk. destruct ks as [|k1 ks']; [reflexivity|].
    apply List.app_removelast_last. discriminate. }
  set (ksI := removelast ks) in *.
  assert (HlI : linkedKeys (db s) ksI (List.hd [] tk)).
  { rewrite Hdec in Hl. now apply linkedKeys_app in Hl. }
  assert (HeI : (e <= length ksI)%nat).
  { destruct He as [He0|Helt]; [lia|].
    rewrite Hdec, List.length_app in Helt. subst tk.
    destruct ks; cbn [length] in *; lia. }
  assert (HC : C = skipn e ksI ++ (tk ++ hs)).
  { subst C. rewrite Hdec at 1. rewrite List.skipn_app.
    replace (e - length ksI)%nat with 0%nat by lia.
    cbn [skipn]. now rewrite <- app_assoc. }
  assert (Hlinked : linkedKeys (db s') C []).
  { rewrite HC. apply linkedKeys_app. split.
    - apply (linkedKeys_same (db s)).
      + intros k Hk.
        assert (HkI : In k ksI) by now apply in_skipn in Hk.
        rewrite Hkeep by (rewrite HC; apply in_or_app; now left).
        subst d1. apply (writes_keep _ _ _ _ Hops). rewrite Hkeys.
        intros Hin. apply in_app_or in Hin. destruct Hin as [Hin|Hin].
        * apply (NoDup_split ksI tk k); auto. now rewrite <- Hdec.
        * apply (Hdisj k); auto. rewrite Hdec. apply in_or_app. now left.
      + apply linkedKeys_skipn.
        assert (Hhd : ksI = [] \/ List.hd [] (tk ++ hs) = List.hd [] tk).
        { subst tk ksI. destruct ks; [left | right]; reflexivity. }
        destruct Hhd as [Hnil | Hhd]; [rewrite Hnil; exact I|].
        rewrite Hhd. exact HlI.
    - apply (linkedKeys_same d1); [|exact Hlinked1].
      intros k Hk. apply Hkeep. rewrite HC. apply in_or_app. now right. }
  assert (HndC : List.NoDup C).
  { rewrite <- Hskip. apply NoDup_skipn.
    apply List.NoDup_app; auto; intros a Ha Hh; now apply (Hdisj a). }
  assert (HlenC : Z.min (Z.of_nat (length (ks ++ hs))) (maxReceipts s)
                  = Z.of_nat (length C)).
  { rewrite <- Hskip, List.length_skipn. unfold e. lia. }
  assert (HlastC : List.last (ks ++ hs) [] = List.last C []).
  { rewrite <- Hskip. destruct He as [He0|Helt].
    - now rewrite He0.
    - symmetry. apply last_skipn. rewrite List.length_app. lia. }
  rewrite HlenC, HlastC in Hdb.
  match type of Hdb with _ = fold_left _ (closingOps ?a ?b ?c ?h ?f ?g) ?d0 =>
    destruct (closing_params d0 a b c h f g Hfix) as [Lh [Lt Ls]]
  end.
  cbn zeta in Lh, Lt, Ls. rewrite <- Hdb in Lh, Lt, Ls.
  split; [|split; assumption].
  apply getDBParams_written; auto.
  - rewrite <- HlenC. lia.
  - intros Hpos. destruct C as [|c C']; [cbn [length] in Hpos; lia|].
    split.
    + cbn [List.hd]. cbn [linkedKeys] in Hlinked. tauto.
    + apply (linkedKeys_last _ _ _ Hlinked). discriminate.
  - intros Hzero. destruct C as [|c C']; [split; reflexivity|].
    cbn [length] in Hzero. lia.
Qed.
(** X12: on a store that holds a chain, a block is appended first in,
    first out.  Let the store hold the chain [ks] (the parameters read
    from it are its length, first and last key; the nodes under its keys
    are linked in order; no key comes twice), and let the block's
    non-skipped receipts have pairwise distinct hashes [hs] that are not
    keys of the store.  When the nodes to be written read back with their
    next hash, no chain key or hash is one of the five fixed keys, the
    sizes stay in the range of [uint64], and the eviction, if any, stops
    short of the tail of before ([e] keys over the bound, with [e] below
    the length of [ks]), then after a call that commits the store holds
    the chain of [ks] followed by [hs] without its first [e] keys, and the
    chain invariant holds whenever that chain is not empty. *)
Theorem block_keeps_chain s receipts height st0 s' (ks : list bytes) :
  let hs := map TxHash (validReceipts receipts) in
  let e := Z.to_nat (Z.of_nat (length (ks ++ hs)) - maxReceipts s) in
  0 <= maxReceipts s ->
  List.NoDup (fixedKeys height) ->
  receipts <> [] -> maxReceipts s <> 0 ->
  readChain (Rollback s) = Ret (inr st0) ->
  CommitReceipts s receipts height = Ret (None, s') ->
  chainOf (db s) ks ->
  List.NoDup hs ->
  (forall h, In h hs -> db s !! h = None) ->
  (forall k, In k (ks ++ hs) -> ~ In k (fixedKeys height)) ->
  Forall readsBackNext (nodeWrites st0 (validReceipts receipts)) ->
  Z.of_nat (length (ks ++ hs)) < 2 ^ 64 ->
  (e = 0%nat \/ (e < length ks)%nat) ->
  chainOf (db s') (skipn e (ks ++ hs))
  /\ (skipn e (ks ++ hs) <> [] -> chainInvariant (db s') = true).
Proof.
  intros hs e Hmax Hfix Hr Hm Hread Hcommit Hchain Hndhs Hfresh Hnotfixed
    Hback Hnowrap He.
  assert (H : chainOf (db s') (skipn e (ks ++ hs))).
  { now apply (block_chain s receipts height st0 s' ks). }
  split; [exact H|]. now apply chainOf_invariant.
Qed.

(** ** The keys a call touches *)

Lemma validReceipts_cons (r : option (EvmTxReceipt EventData)) receipts :
  validReceipts (r :: receipts)
  = match r with
    | None => []
    | Some txReceipt => if is_empty (TxHash txReceipt) then [] else [txReceipt]
    end ++ validReceipts receipts.
Proof. reflexivity. Qed.

Lemma setsAmong_more (keys keys' : list bytes) (ops : list batchOp) :
  (forall k, In k keys -> In k keys') ->
  Forall (setsAmong keys) ops -> Forall (setsAmong keys') ops.
Proof.
  intros Hsub. apply List.Forall_impl.
  intros op [k [v [Hop Hk]]]. exists k, v. auto.
Qed.

(** The loop writes under the tail of before and under hashes of the
    block, and nowhere else; the tail it ends with is one of those. *)
Lemma linkReceipts_keys d receipts :
  forall st,
    exists ops,
      l_batch (linkReceipts d st receipts) = l_batch st ++ ops
      /\ Forall (setsAmong
                   (l_tailHash st :: map TxHash (validReceipts receipts))) ops
      /\ In (l_tailHash (linkReceipts d st receipts))
           (l_tailHash st :: map TxHash (validReceipts receipts)).
Proof.
  unfold linkReceipts.
  induction receipts as [|r rest IH]; intros st; cbn [fold_left].
  - exists []. rewrite app_nil_r. repeat split; [constructor | now left].
  - rewrite validReceipts_cons.
    destruct r as [r|]; [|cbn [app]; apply IH].
    unfold linkReceipt at 2 4.
    destruct (is_empty (TxHash r)) eqn:Hr; [cbn [app]; apply IH|].
    cbn [app map].
    destruct (is_empty (l_headHash st)).
    + match goal with |- context [fold_left _ _ (setNextTail ?a ?b)] =>
        destruct (IH (setNextTail a b)) as [ops [Hb [Hops Htail]]]
      end.
      cbn [setNextTail l_batch l_tailHash] in Hb, Hops, Htail.
      exists ops. split; [exact Hb|]. split.
      * eapply setsAmong_more; [|exact Hops]. intros k Hk. now right.
      * now right.
    + destruct (MarshalItem _) as [p|msg].
      * match goal with |- context [fold_left _ _ (setNextTail ?a ?b)] =>
          destruct (IH (setNextTail a b)) as [ops [Hb [Hops Htail]]]
        end.
        cbn [setNextTail l_batch l_tailHash] in Hb, Hops, Htail.
        exists (OpSet (l_tailHash st) p :: ops). split; [|split].
        -- rewrite Hb. unfold batchSet. now rewrite <- app_assoc.
        -- constructor.
           ++ exists (l_tailHash st), p. split; [reflexivity | now left].
           ++ eapply setsAmong_more; [|exact Hops]. intros k Hk. now right.
        -- now right.
      * match goal with |- context [fold_left _ _ ?a] =>
          destruct (IH a) as [ops [Hb [Hops Htail]]]
        end.
        cbn [l_batch l_tailHash] in Hb, Hops, Htail.
        exists ops. split; [exact Hb|]. split.
        -- eapply setsAmong_more; [|exact Hops].
           intros k [Hk|Hk]; [now left | right; now right].
        -- destruct Htail as [Ht|Ht]; [now left | right; now right].
Qed.

Lemma linking_keys d st receipts :
  let keys := l_tailHash st :: map TxHash (validReceipts receipts) in
  exists ops,
    l_batch (stageTail d (linkReceipts d st receipts)) = l_batch st ++ ops
    /\ Forall (setsAmong keys) ops.
Proof.
  intros keys.
  destruct (linkReceipts_keys d receipts st) as [ops [Hb [Hops Htail]]].
  fold keys in Hops, Htail.
  unfold stageTail.
  destruct (is_empty (l_tailHash (linkReceipts d st receipts)));
    [exists ops; split; assumption|].
  destruct (MarshalItem _) as [p|msg]; [|exists ops; split; assumption].
  cbn [l_batch].
  exists (ops ++ [OpSet (l_tailHash (linkReceipts d st receipts)) p]). split.
  - rewrite Hb. unfold batchSet. now rewrite <- app_assoc.
  - apply Forall_app. split; [exact Hops|]. constructor; [|constructor].
    eexists _, p. split; [reflexivity | exact Htail].
Qed.

Lemma sets_keep (keys : list bytes) (ops : list batchOp) :
  forall (d : gmap bytes bytes) (k : bytes),
    Forall (setsAmong keys) ops -> ~ In k keys ->
    fold_left applyOp ops d !! k = d !! k.
Proof.
  induction ops as [|op ops IH]; intros d k Hops Hk; [reflexivity|].
  inversion Hops as [|op' ops' [k' [v [-> Hk']]] Hrest]; subst.
  cbn [fold_left applyOp]. rewrite IH by assumption.
  apply lookup_insert_ne. intros ->. contradiction.
Qed.

(** X13: a committing call touches nothing but its own keys.  Whatever
    the codec does, the value under a key is the same after the call as
    before, unless the key is one of the five fixed keys, the tail hash of
    before, the hash of a non-skipped receipt of the block, or a key on
    the eviction walk.  In particular the entries of other heights and
    the nodes in the middle of the chain are left alone. *)
Theorem CommitReceipts_frame s receipts height st0 s' :
  0 <= maxReceipts s ->
  receipts <> [] -> maxReceipts s <> 0 ->
  readChain (Rollback s) = Ret (inr st0) ->
  CommitReceipts s receipts height = Ret (None, s') ->
  let st := stageTail (db s) (linkReceipts (db s) st0 receipts) in
  let n := Z.to_nat (l_size st - maxReceipts s) in
  forall k : bytes,
    ~ In k (fixedKeys height) ->
    k <> l_tailHash st0 ->
    ~ In k (map TxHash (validReceipts receipts)) ->
    ~ In k (chainKeys (db s) n (l_headHash st)) ->
    db s' !! k = db s !! k.
Proof.
  intros Hmax Hr Hm Hread Hcommit st n k Hfixed Htail Hblock Hwalk.
  destruct (CommitReceipts_batch _ _ _ _ _ Hmax Hr Hm Hread Hcommit)
    as [p [_ [_ Hdb]]].
  fold st in Hdb. fold n in Hdb.
  destruct (linking_keys (db s) st0 receipts) as [ops [Hb Hops]].
  fold st in Hb.
  destruct (readChain_start _ _ Hread) as [_ [_ [_ Hb0]]].
  cbn [Rollback batch] in Hb0. rewrite Hb0 in Hb. cbn [app] in Hb.
  rewrite Hdb, Hb, closing_keeps, deletes_keep by assumption.
  apply (sets_keep _ _ _ _ Hops). cbn [In]. intros [H|H]; auto.
Qed.

(** ** The tail of before *)

Lemma getDBParams_tail d size (head tail : bytes) :
  getDBParams d = Ret (size, head, tail, None) -> head <> [] -> tail <> [].
Proof.
  unfold getDBParams.
  destruct (negb (Has d currentDbSizeKey)); [intros [= _ <- _]; congruence|].
  destruct (Uint64 (Get d currentDbSizeKey)) as [v|p]; [|discriminate].
  destruct (v =? 0); [intros [= _ <- _]; congruence|].
  destruct (is_empty (Get d headKey)); [discriminate|].
  destruct (is_empty (Get d tailKey)) eqn:Ht; [discriminate|].
  intros [= _ _ <-] _. now apply is_empty_false.
Qed.

Lemma readChain_tail s st0 :
  readChain s = Ret (inr st0) ->
  is_empty (l_headHash st0) = false ->
  l_tailHash st0 <> [].
Proof.
  unfold readChain.
  destruct (getDBParams (db s)) as [[[[size head] tail] e]|q] eqn:Hp;
    [|discriminate].
  destruct e; [discriminate|].
  destruct (negb (is_empty head)) eqn:Hh.
  - destruct (is_empty (Get (db s) tail)); [discriminate|].
    destruct (UnmarshalItem (Get (db s) tail)); [|discriminate].
    intros [= <-] Hhead. cbn [l_tailHash l_headHash] in *.
    apply (getDBParams_tail _ _ _ _ Hp). now apply is_empty_false.
  - intros [= <-]. cbn [l_headHash]. intros Hne.
    apply negb_false_iff in Hh. congruence.
Qed.

(** X14: linking onto the tail rewrites its next hash, not its receipt.
    On a non-empty chain, when the call commits and the nodes it writes
    encode to bytes that are not empty and decode with the same receipt,
    [GetReceipt] still returns the receipt of the tail of before under its
    hash, provided that hash is not reused by the block, not evicted by
    the call and not one of the five fixed keys. *)
Theorem previous_tail_keeps_receipt s receipts height st0 s'
    (r : EvmTxReceipt EventData) :
  0 <= maxReceipts s ->
  receipts <> [] -> maxReceipts s <> 0 ->
  readChain (Rollback s) = Ret (inr st0) ->
  CommitReceipts s receipts height = Ret (None, s') ->
  let st := stageTail (db s) (linkReceipts (db s) st0 receipts) in
  let n := Z.to_nat (l_size st - maxReceipts s) in
  is_empty (l_headHash st0) = false ->
  Receipt (l_tailReceiptItem st0) = Some r ->
  Forall readsBack (nodeWrites st0 (validReceipts receipts)) ->
  ~ In (l_tailHash st0) (map TxHash (validReceipts receipts)) ->
  ~ In (l_tailHash st0) (chainKeys (db s) n (l_headHash st)) ->
  ~ In (l_tailHash st0) (fixedKeys height) ->
  GetReceipt s' (l_tailHash st0) = Ret (r, None).
Proof.
  intros Hmax Hr Hm Hread Hcommit st n Hhead Hrc Hback Hblock Hwalk Hfixed.
  destruct (CommitReceipts_batch _ _ _ _ _ Hmax Hr Hm Hread Hcommit)
    as [p [_ [_ Hdb]]].
  fold st in Hdb. fold n in Hdb.
  assert (Henc : Forall encodes (nodeWrites st0 (validReceipts receipts))).
  { eapply List.Forall_impl; [|exact Hback].
    intros w [q [it [Hq _]]]. now exists q. }
  destruct (linking_batch (db s) st0 receipts Henc) as [ops [Hb Hops]].
  fold st in Hb.
  destruct (readChain_start _ _ Hread) as [_ [_ [_ Hb0]]].
  cbn [Rollback batch] in Hb0. rewrite Hb0 in Hb. cbn [app] in Hb.
  pose proof (readChain_tail _ _ Hread Hhead) as Htail.
  assert (Hws : nodeWrites st0 (validReceipts receipts)
                = chainWrites (l_tailHash st0) (l_tailReceiptItem st0)
                    (validReceipts receipts)).
  { unfold nodeWrites. rewrite Hhead.
    destruct (validReceipts receipts); [|reflexivity].
    apply is_empty_false in Htail. now rewrite Htail. }
  rewrite Hws in Hops, Hback.
  destruct (chain_first _ _ _ ops (db s) Hops Hblock)
    as [w [q [Hw [_ [Hwrc [Hq Hl]]]]]].
  rewrite List.Forall_forall in Hback.
  destruct (Hback w Hw) as [q' [it [Hq' [Hne [Hit Hrc']]]]].
  assert (q' = q) by congruence. subst q'.
  assert (Hfinal : db s' !! l_tailHash st0 = Some q).
  { rewrite Hdb, Hb, closing_keeps, deletes_keep by assumption. exact Hl. }
  unfold GetReceipt, Get. rewrite Hfinal.
  apply is_empty_false in Hne. rewrite Hne, Hit, Hrc', Hwrc, Hrc. reflexivity.
Qed.

End MoreProperties.

(** * The further properties at work on the concrete instance *)

Ltac not_a_key :=
  vm_compute;
  let H := fresh "H" in
  intros H; repeat (destruct H as [H|H]; [discriminate H|]); exact H.

Ltac distinct_keys :=
  vm_compute;
  repeat (apply List.NoDup_cons; [not_a_key|]);
  apply List.NoDup_nil.


Ltac all_read_back :=
  vm_compute;
  repeat (apply List.Forall_cons;
          [do 2 eexists;
           split; [vm_compute; reflexivity|];
           split; [discriminate|];
           split; vm_compute; reflexivity|]);
  apply List.Forall_nil.

(** A call that returns nil leaves the store that [commit] names. *)
Lemma commit_returned (s : EvmAuxStore)
    (receipts : list (option (EvmTxReceipt bytes))) (height : Z) :
  returned (CommitReceipts s receipts height) = Some None ->
  CommitReceipts s receipts height = Ret (None, commit s receipts height).
Proof.
  unfold commit, storeAfter, returned.
  destruct (CommitReceipts s receipts height) as [[e s1]|p];
    [intros [= ->]; reflexivity | discriminate].
Qed.

Lemma getDBParams_shape_witness :
  0 < 2 < 2 ^ 64
  /\ hashA = Get (db afterAB) headKey /\ hashB = Get (db afterAB) tailKey.
Proof.
  destruct (getDBParams_shape (db afterAB) 2 hashA hashB None)
    as [[_ [H _]] | [[_ [Hs [Hh [_ [Ht _]]]]] | [H _]]];
    [vm_compute; reflexivity | discriminate | auto | discriminate].
Defined.

Lemma params_round_trip_witness :
  getDBParams
    (fold_left applyOp (setDBParams [OpDelete hashA] 5 hashA hashB) (db afterAB))
  = Ret (5, hashA, hashB, None).
Proof.
  apply (params_round_trip (db afterAB) [OpDelete hashA] 5 hashA hashB);
    try (vm_compute; discriminate).
  lia.
Defined.

Lemma CommitReceipts_panics_witness :
  exists p, CommitReceipts shortSizeStore blockC 1 = Panic p.
Proof.
  apply (proj2 (CommitReceipts_panics_iff shortSizeStore blockC 1)).
  split; [discriminate|]. split; [vm_compute; discriminate|].
  exists [x01]. split; [vm_compute; reflexivity | cbn; lia].
Defined.

Lemma CommitReceipts_error_witness :
  returned (CommitReceipts afterA_B blockC 3)
  = Some (Some (ErrWrapped (ErrNew "no head for non zero size receipt db")
                  "getting db params."))
  /\ db (commit afterA_B blockC 3) = db afterA_B
  /\ maxReceipts (commit afterA_B blockC 3) = maxReceipts afterA_B.
Proof.
  assert (R : returned (CommitReceipts afterA_B blockC 3)
              = Some (Some (ErrWrapped
                              (ErrNew "no head for non zero size receipt db")
                              "getting db params.")))
    by (vm_compute; reflexivity).
  split; [exact R|].
  unfold commit, storeAfter. unfold returned in R.
  destruct (CommitReceipts afterA_B blockC 3) as [[e s']|p] eqn:H;
    [|discriminate].
  injection R as ->.
  apply (CommitReceipts_error_keeps_store afterA_B blockC 3 _ s' H).
Defined.

Lemma removeOldEntries_walk_witness :
  1 = Z.of_nat (length (chainKeys (db afterAB) (Z.to_nat 1) hashA))
  /\ hashB = chainEnd (db afterAB) (Z.to_nat 1) hashA.
Proof.
  destruct (removeOldEntries_walk (db afterAB) [] hashA 1
              hashB 1 None [OpDelete hashA])
    as [_ [Hc [Hh _]]]; [lia | vm_compute; reflexivity | split; assumption].
Defined.

Lemma committed_size_witness :
  0 <= storedSize (db afterABC) <= maxReceipts afterAB.
Proof.
  apply (committed_size_within_bound afterAB blockC 2 (startOf afterAB) afterABC).
  - vm_compute. discriminate.
  - distinct_keys.
  - discriminate.
  - vm_compute. discriminate.
  - vm_compute. reflexivity.
  - apply commit_returned. vm_compute. reflexivity.
Defined.

Lemma committed_tail_witness : Get (db afterABC) tailKey = hashC.
Proof.
  destruct (committed_head_and_tail afterAB blockC 2 (startOf afterAB) afterABC)
    as [Ht _].
  - vm_compute. discriminate.
  - distinct_keys.
  - discriminate.
  - vm_compute. discriminate.
  - vm_compute. reflexivity.
  - apply commit_returned. vm_compute. reflexivity.
  - rewrite Ht. vm_compute. reflexivity.
Defined.

Lemma evicted_receipts_witness :
  GetReceipt afterABC hashA = Ret (emptyReceipt, Some ErrTxReceiptNotFound).
Proof.
  destruct (evicted_receipts_are_gone afterAB blockC 2 (startOf afterAB) afterABC)
    as [_ H].
  - vm_compute. discriminate.
  - discriminate.
  - vm_compute. discriminate.
  - vm_compute. reflexivity.
  - apply commit_returned. vm_compute. reflexivity.
  - apply (H hashA).
    + vm_compute. auto.
    + not_a_key.
Defined.


Lemma committed_receipts_witness :
  GetReceipt afterMixed hashB = Ret (receiptBfailed, None).
Proof.
  refine (committed_receipts_are_found (emptyStore 5) blockMixed 1
            (startOf (emptyStore 5)) afterMixed _ _ _ _ _ _ _ _
            receiptBfailed _ _).
  - vm_compute. discriminate.
  - discriminate.
  - vm_compute. discriminate.
  - vm_compute. reflexivity.
  - apply commit_returned. vm_compute. reflexivity.
  - vm_compute. discriminate.
  - distinct_keys.
  - all_read_back.
  - vm_compute. auto.
  - not_a_key.
Defined.

Lemma skipped_block_witness :
  CommitReceipts (emptyStore 2) blockSkipped 1
  = Ret (None, Commit (withBatch (emptyStore 2) (closingOps 0 [] [] 1 [] []))).
Proof.
  apply (skipped_block_still_commits (emptyStore 2) blockSkipped 1 []).
  - reflexivity.
  - discriminate.
  - vm_compute. discriminate.
  - vm_compute. discriminate.
  - vm_compute. reflexivity.
  - reflexivity.
Defined.

Lemma chain_of_afterAB : chainOf (db afterAB) [hashA; hashB].
Proof.
  split; [vm_compute; reflexivity|]. split; [|distinct_keys].
  cbn [linkedKeys List.hd].
  repeat split; try discriminate; vm_compute; reflexivity.
Qed.

Lemma block_keeps_chain_witness :
  chainOf (db afterABC) [hashB; hashC] /\ chainInvariant (db afterABC) = true.
Proof.
  destruct (block_keeps_chain afterAB blockC 2 (startOf afterAB) afterABC
              [hashA; hashB]) as [Hchain Hinv].
  - vm_compute. discriminate.
  - distinct_keys.
  - discriminate.
  - vm_compute. discriminate.
  - vm_compute. reflexivity.
  - apply commit_returned. vm_compute. reflexivity.
  - exact chain_of_afterAB.
  - distinct_keys.
  - intros h Hh. vm_compute in Hh. destruct Hh as [<-|[]].
    vm_compute. reflexivity.
  - intros k Hk. vm_compute in Hk.
    destruct Hk as [<-|[<-|[<-|[]]]]; not_a_key.
  - all_read_back.
  - vm_compute. reflexivity.
  - right. vm_compute. lia.
  - split; [exact Hchain|]. apply Hinv. discriminate.
Defined.

Lemma CommitReceipts_frame_witness :
  db afterABC !! bloomFilterKey 1 = db afterAB !! bloomFilterKey 1.
Proof.
  apply (CommitReceipts_frame afterAB blockC 2 (startOf afterAB) afterABC).
  - vm_compute. discriminate.
  - discriminate.
  - vm_compute. discriminate.
  - vm_compute. reflexivity.
  - apply commit_returned. vm_compute. reflexivity.
  - not_a_key.
  - vm_compute. discriminate.
  - not_a_key.
  - not_a_key.
Defined.

Lemma previous_tail_witness :
  GetReceipt afterABC hashB = Ret (receiptB, None).
Proof.
  refine (previous_tail_keeps_receipt afterAB blockC 2 (startOf afterAB)
            afterABC receiptB _ _ _ _ _ _ _ _ _ _ _).
  - vm_compute. discriminate.
  - discriminate.
  - vm_compute. discriminate.
  - vm_compute. reflexivity.
  - apply commit_returned. vm_compute. reflexivity.
  - vm_compute. reflexivity.
  - vm_compute. reflexivity.
  - all_read_back.
  - not_a_key.
  - not_a_key.
  - not_a_key.
Defined.
